(** * Execution publication and artifact reconciliation

    A shallow embedding of
    [tfx/orchestration/portable/execution_publish_utils.py]:
    [publish_cached_execution], [publish_succeeded_execution],
    [publish_failed_execution], [publish_internal_execution] and
    [register_execution].

    Python objects that the code mutates in place (the artifacts of the
    output skeleton) live in a heap indexed by object identity, so that
    two positions of the skeleton holding the same object are visible as
    such.  A raised exception leaves the heap as it was at the raise:
    nothing is rolled back.

    The operations of [execution_lib], which the code calls and the
    sources do not contain, are parameters of the development: the
    properties hold whatever they do to the store and to the artifact
    objects, and whether they return or raise. *)

From stdpp Require Import functions gmap strings list.

Local Open Scope Z_scope.

(** ** Protocol-buffer records *)

(** MLMD property values ([types.Property] is an int or a str here; the
    floating-point alternative is not modelled). *)
Inductive Value :=
| int_value (z : Z)
| string_value (s : string).

(** Modelled from the spec: the states of an artifact named in the data
    model (the enum declaration of [metadata_store_pb2.Artifact] is not
    part of the sources; the code only names [LIVE]). *)
Inductive ArtifactState := PENDING | LIVE | ABANDONED.

(** Modelled from the spec: [lastKnownState] of an execution (the enum of
    [metadata_store_pb2.Execution] is not part of the sources; the code
    names [RUNNING], [COMPLETE], [CACHED] and [FAILED]). *)
Inductive ExecutionState := NEW | RUNNING | COMPLETE | FAILED | CACHED | CANCELED.

(** Modelled from the spec: the typed role of an event
    ([metadata_store_pb2.Event]; the code names [INTERNAL_OUTPUT]). *)
Inductive EventType := INPUT | OUTPUT | INTERNAL_OUTPUT.

Module Artifact.

(** Modelled from the spec: the record behind an artifact
    ([metadata_store_pb2.Artifact]): identity, type, payload reference,
    properties and state.  Scalar fields are optional, as in the protocol
    buffer: [None] is an unset field. *)
Record t := mk {
  id : option Z;
  type_id : option Z;
  uri : option string;
  properties : gmap string Value;
  state : option ArtifactState
}.

(** Reading an unset integer field yields 0: this is what
    [original.type_id] and [updated.type_id] evaluate to. *)
Definition get_type_id (a : t) : Z := default 0 (type_id a).

(** [Message.Clear()]: every field unset. *)
Definition Clear (_ : t) : t := mk None None None ∅ None.

(** [Message.MergeFrom(other)]: a singular field set in [other] replaces
    the one of [self]; map entries of [other] are added over those of
    [self]. *)
Definition MergeFrom (self other : t) : t :=
  mk (from_option Some (id self) (id other))
     (from_option Some (type_id self) (type_id other))
     (from_option Some (uri self) (uri other))
     (properties other ∪ properties self)
     (from_option Some (state self) (state other)).

(** [Message.CopyFrom(other)] clears the receiver and merges [other]
    into it. *)
Definition CopyFrom (self other : t) : t := MergeFrom (Clear self) other.

(** The assignment [a.state = s]. *)
Definition set_state (s : ArtifactState) (a : t) : t :=
  mk (id a) (type_id a) (uri a) (properties a) (Some s).

(** The assignment [a.id = i]. *)
Definition set_id (i : Z) (a : t) : t :=
  mk (Some i) (type_id a) (uri a) (properties a) (state a).

End Artifact.

Module ArtifactList.

(** [metadata_store_service_pb2.ArtifactList]: the value type of
    [ExecutorOutput.output_artifacts]. *)
Record t := mk { artifacts : list Artifact.t }.

End ArtifactList.

Module ExecutorOutput.

(** [execution_result_pb2.ExecutorOutput], as far as the code reads it:
    the map from output key to the reported artifacts. *)
Record t := mk { output_artifacts : gmap string ArtifactList.t }.

End ExecutorOutput.

Module Execution.

(** Modelled from the spec: the execution record
    ([metadata_store_pb2.Execution]): identity, type, state and
    properties. *)
Record t := mk {
  id : option Z;
  type_id : option Z;
  last_known_state : option ExecutionState;
  properties : gmap string Value
}.

(** The assignment [execution.last_known_state = s]. *)
Definition set_last_known_state (s : ExecutionState) (e : t) : t :=
  mk (id e) (type_id e) (Some s) (properties e).

(** The assignment [execution.id = i]. *)
Definition set_id (i : Z) (e : t) : t :=
  mk (Some i) (type_id e) (last_known_state e) (properties e).

End Execution.

Module ExecutionType.

(** Modelled from the spec: the schema reference of an execution
    ([metadata_store_pb2.ExecutionType]). *)
Record t := mk { id : option Z; name : string }.

End ExecutionType.

Module Context.

(** Modelled from the spec: a grouping entity supplied by the caller
    ([metadata_store_pb2.Context]). *)
Record t := mk { id : option Z; name : string }.

End Context.

Module Event.

(** Modelled from the spec: a link between one execution and one artifact
    with a typed role. *)
Record t := mk { execution_id : Z; artifact_id : Z; type : EventType }.

End Event.

(** ** Python values *)

(** The identity of a [types.Artifact] object. *)
Definition addr := nat.

(** A Python [dict] with [str] keys, in insertion order. *)
Definition dict (V : Type) := list (string * V).

(** [d.keys()] and [d.values()]. *)
Definition keys {V} (d : dict V) : list string := d.*1.
Definition values {V} (d : dict V) : list V := d.*2.

(** The text of the exceptions the code raises.  The first message is
    formatted from the executor output and the skeleton, which it
    therefore carries. *)
Inductive message :=
| more_keys (executor_output : ExecutorOutput.t)
            (output_artifacts : dict (list addr))
| partial_update
| type_changed
| not_enough_values (expected got : nat)
| too_many_values (expected : nat).

(** [RuntimeError] is raised by the three [raise] statements of
    [publish_succeeded_execution]; [ValueError] is what the unpacking
    assignment [[execution] = ...] raises on a list whose length is
    not 1; [OtherError] stands for any other exception, such as one that
    the store raises in a call of [execution_lib], which the code lets
    through. *)
Inductive exn :=
| RuntimeError (msg : message)
| ValueError (msg : message)
| OtherError (name : string).

(** ** The metadata store *)

Module Store.

(** Modelled from the spec: the record store behind
    [metadata_handler.store], which is not part of the sources.  It holds
    the execution and artifact records, the event links, and the
    associations of contexts with executions and with artifacts. *)
Record t := mk {
  executions : list Execution.t;
  artifacts : list Artifact.t;
  events : list Event.t;
  associations : list (Context.t * Z);
  attributions : list (Context.t * Z)
}.

(** Modelled from the spec: [store.get_executions_by_id(ids)] returns the
    stored executions whose id is one of [ids]. *)
Definition get_executions_by_id (s : t) (ids : list Z) : list Execution.t :=
  filter (λ e, Execution.id e ∈ Some <$> ids) (executions s).

End Store.

(** ** The state of a call *)

(** What a call can observe and change: the artifact objects reachable
    from its arguments, and the store.  Every Python reference denotes an
    object, so the heap is total. *)
Record World := mkWorld {
  heap : addr → Artifact.t;
  store : Store.t
}.

(** A computation either returns or raises, and in both cases leaves a
    world behind. *)
Definition M (A : Type) : Type := World → (exn + A) * World.

#[global] Instance M_ret : MRet M := λ A x w, (inr x, w).

#[global] Instance M_bind : MBind M := λ A B f m w,
  match m w with
  | (inl e, w') => (inl e, w')
  | (inr x, w') => f x w'
  end.

Definition raise {A} (e : exn) : M A := λ w, (inl e, w).

(** [original.type_id]: a read of the object's backing record. *)
Definition read_type_id (a : addr) : M Z :=
  λ w, (inr (Artifact.get_type_id (heap w a)), w).

(** An in-place update of the record behind the object [a]. *)
Definition update_mlmd_artifact (a : addr) (f : Artifact.t → Artifact.t)
  : M unit :=
  λ w, (inr (), mkWorld (<[a := f (heap w a)]> (heap w)) (store w)).

(** [metadata_handler.store.get_executions_by_id(ids)]. *)
Definition get_executions_by_id (ids : list Z) : M (list Execution.t) :=
  λ w, (inr (Store.get_executions_by_id (store w) ids), w).

(** The unpacking assignment [[x] = xs]. *)
Definition unpack1 {A} (xs : list A) : M A :=
  match xs with
  | [x] => mret x
  | [] => raise (ValueError (not_enough_values 1 0))
  | _ :: _ :: _ => raise (ValueError (too_many_values 1))
  end.

(** ** The execution library *)

(** Modelled from the spec: [execution_lib.prepare_execution] and
    [execution_lib.put_execution] are not part of the sources.  The spec
    gives their contract (build an execution record; persist the execution,
    its artifacts and their links in one durable unit, and return the
    persisted execution) and lets their failures through unchanged.  They
    are parameters here: computations that may return or raise, and may
    change the store and the artifact objects in any way.  The arguments of
    [put_execution] are the execution, the contexts, the input and the
    output artifacts, and the type of the output events ([OUTPUT] where the
    code does not give one). *)
Class ExecutionLib := {
  prepare_execution :
    ExecutionType.t → ExecutionState → option (gmap string Value) →
    M Execution.t;
  put_execution :
    Execution.t → list Context.t →
    option (dict (list addr)) → option (dict (list addr)) → EventType →
    M Execution.t
}.

(** ** The publisher *)

(** [output_artifacts or {}]. *)
Definition or_empty {V} (d : option (dict V)) : dict V := default [] d.

(** The loop over [zip(artifact_list, updated_artifact_list)]: the type
    check and the copy, pair by pair. *)
Fixpoint merge_artifacts (pairs : list (addr * Artifact.t)) : M unit :=
  match pairs with
  | [] => mret ()
  | (original, updated) :: pairs' =>
      original_type_id ← read_type_id original;
      if bool_decide (original_type_id ≠ Artifact.get_type_id updated)
      then raise (RuntimeError type_changed)
      else
        update_mlmd_artifact original (λ self, Artifact.CopyFrom self updated);;
        merge_artifacts pairs'
  end.

(** The loop over [output_artifacts.items()]. *)
Fixpoint merge_items (executor_output : ExecutorOutput.t)
    (items : dict (list addr)) : M unit :=
  match items with
  | [] => mret ()
  | (key, artifact_list) :: items' =>
      match ExecutorOutput.output_artifacts executor_output !! key with
      | None => merge_items executor_output items'
      | Some entry =>
          let updated_artifact_list := ArtifactList.artifacts entry in
          if bool_decide (length artifact_list ≠ length updated_artifact_list)
          then raise (RuntimeError partial_update)
          else
            merge_artifacts (zip artifact_list updated_artifact_list);;
            merge_items executor_output items'
      end
  end.

(** The inner loop of "Marks output artifacts as LIVE". *)
Fixpoint mark_artifact_list (artifact_list : list addr) : M unit :=
  match artifact_list with
  | [] => mret ()
  | artifact :: artifact_list' =>
      update_mlmd_artifact artifact (Artifact.set_state LIVE);;
      mark_artifact_list artifact_list'
  end.

(** The loop over [output_artifacts.values()]. *)
Fixpoint mark_live (lists : list (list addr)) : M unit :=
  match lists with
  | [] => mret ()
  | artifact_list :: lists' =>
      mark_artifact_list artifact_list;;
      mark_live lists'
  end.

(** The [if executor_output:] block: a message object is always true, so
    the block runs whenever an executor output is given. *)
Definition merge_executor_output (output_artifacts : dict (list addr))
    (executor_output : option ExecutorOutput.t) : M unit :=
  match executor_output with
  | None => mret ()
  | Some executor_output =>
      if negb (bool_decide
                 (dom (ExecutorOutput.output_artifacts executor_output)
                    ⊆ (list_to_set (keys output_artifacts) : gset string)))
      then raise (RuntimeError (more_keys executor_output output_artifacts))
      else merge_items executor_output output_artifacts
  end.

Section Publisher.

Context {lib : ExecutionLib}.

Definition publish_cached_execution (contexts : list Context.t)
    (execution_id : Z) (output_artifacts : option (dict (list addr)))
  : M unit :=
  executions ← get_executions_by_id [execution_id];
  execution ← unpack1 executions;
  let execution := Execution.set_last_known_state CACHED execution in
  put_execution execution contexts None output_artifacts OUTPUT;;
  mret ().

Definition publish_succeeded_execution (execution_id : Z)
    (contexts : list Context.t) (output_artifacts : option (dict (list addr)))
    (executor_output : option ExecutorOutput.t) : M unit :=
  let output_artifacts := or_empty output_artifacts in
  merge_executor_output output_artifacts executor_output;;
  mark_live (values output_artifacts);;
  executions ← get_executions_by_id [execution_id];
  execution ← unpack1 executions;
  let execution := Execution.set_last_known_state COMPLETE execution in
  put_execution execution contexts None (Some output_artifacts) OUTPUT;;
  mret ().

Definition publish_failed_execution (contexts : list Context.t)
    (execution_id : Z) : M unit :=
  executions ← get_executions_by_id [execution_id];
  execution ← unpack1 executions;
  let execution := Execution.set_last_known_state FAILED execution in
  put_execution execution contexts None None OUTPUT;;
  mret ().

Definition publish_internal_execution (contexts : list Context.t)
    (execution_id : Z) (output_artifacts : option (dict (list addr)))
  : M unit :=
  executions ← get_executions_by_id [execution_id];
  execution ← unpack1 executions;
  let execution := Execution.set_last_known_state COMPLETE execution in
  put_execution execution contexts None output_artifacts INTERNAL_OUTPUT;;
  mret ().

Definition register_execution (execution_type : ExecutionType.t)
    (contexts : list Context.t) (input_artifacts : option (dict (list addr)))
    (exec_properties : option (gmap string Value)) : M Execution.t :=
  execution ← prepare_execution execution_type RUNNING exec_properties;
  put_execution execution contexts input_artifacts None OUTPUT.

End Publisher.

(** ** A reference store *)

Module Reference.

(** Modelled from the spec: one execution library that meets the
    contract of the spec, used to run the operations on concrete inputs.
    It is an example of a store, not the parameter of the properties, which
    are stated for every execution library. *)

(** Id generation: the new id is above every id in use. *)
Definition fresh_id (used : list Z) : Z := 1 + foldr Z.max 0 used.

(** The store holds exactly one execution under the id of the record, or
    the record has no id yet. *)
Definition known_execution (s : Store.t) (e : Execution.t) : bool :=
  match Execution.id e with
  | None => true
  | Some i => bool_decide (length (Store.get_executions_by_id s [i]) = 1%nat)
  end.

(** The store holds an artifact under the id of the record, or the record
    has no id yet. *)
Definition known_artifact (s : Store.t) (a : Artifact.t) : bool :=
  match Artifact.id a with
  | None => true
  | Some i =>
      bool_decide (Exists (λ r, Artifact.id r = Some i) (Store.artifacts s))
  end.

(** Updating the stored execution record of the same id; a record whose
    id the store does not hold changes nothing. *)
Definition update_execution (e : Execution.t) (es : list Execution.t)
  : list Execution.t :=
  (λ x, if decide (Execution.id x = Execution.id e) then e else x) <$> es.

(** Updating the stored artifact record of the same id. *)
Definition update_artifact (a : Artifact.t) (arts : list Artifact.t)
  : list Artifact.t :=
  (λ x, if decide (Artifact.id x = Artifact.id a) then a else x) <$> arts.

(** An event links an execution and an artifact once: a pair that is
    linked already gets no second event. *)
Definition link (eid aid : Z) (ty : EventType) (events : list Event.t)
  : list Event.t :=
  if bool_decide (Exists (λ ev, Event.execution_id ev = eid
                                ∧ Event.artifact_id ev = aid) events)
  then events
  else events ++ [Event.mk eid aid ty].

(** One artifact object of a put.  An artifact with an id has its stored
    record updated; an artifact without one gets a new id, which is written
    into the object, and a new record.  In both cases the artifact is
    linked to the execution.  Returns the artifact id. *)
Definition put_artifact (ty : EventType) (eid : Z) (w : World) (a : addr)
  : World * Z :=
  let s := store w in
  match Artifact.id (heap w a) with
  | Some aid =>
      (mkWorld (heap w)
         (Store.mk (Store.executions s)
            (update_artifact (heap w a) (Store.artifacts s))
            (link eid aid ty (Store.events s))
            (Store.associations s)
            (Store.attributions s)),
       aid)
  | None =>
      let aid := fresh_id (omap Artifact.id (Store.artifacts s)) in
      let r := Artifact.set_id aid (heap w a) in
      (mkWorld (<[a := r]> (heap w))
         (Store.mk (Store.executions s)
            (Store.artifacts s ++ [r])
            (link eid aid ty (Store.events s))
            (Store.associations s)
            (Store.attributions s)),
       aid)
  end.

(** The artifact objects of a put, in order. *)
Fixpoint put_artifacts (ty : EventType) (eid : Z) (w : World)
    (objects : list addr) : World * list Z :=
  match objects with
  | [] => (w, [])
  | a :: objects' =>
      let '(w1, aid) := put_artifact ty eid w a in
      let '(w2, aids) := put_artifacts ty eid w1 objects' in
      (w2, aid :: aids)
  end.

(** Persisting the execution of a put: an execution with an id has its
    stored record updated; an execution without one is stored under a new
    id.  Returns the stored executions and the persisted execution. *)
Definition persist_execution (e : Execution.t) (es : list Execution.t)
  : list Execution.t * Execution.t :=
  match Execution.id e with
  | Some _ => (update_execution e es, e)
  | None =>
      let e' := Execution.set_id (fresh_id (omap Execution.id es)) e in
      (es ++ [e'], e')
  end.

(** The put.  It refuses, before any write, an execution or an artifact
    whose id the store does not hold.  Otherwise it persists the execution,
    then the input and the output artifacts with their links (inputs with
    [INPUT], outputs with the given event type), associates every context
    with the execution and with the input artifacts, and returns the
    persisted execution. *)
Definition put_execution (execution : Execution.t)
    (contexts : list Context.t)
    (input_artifacts output_artifacts : option (dict (list addr)))
    (output_event_type : EventType) : M Execution.t :=
  λ w,
    let inputs := concat (values (or_empty input_artifacts)) in
    let outputs := concat (values (or_empty output_artifacts)) in
    if negb (known_execution (store w) execution
             && forallb (λ a, known_artifact (store w) (heap w a))
                  (inputs ++ outputs))
    then (inl (OtherError "InvalidArgumentError"), w)
    else
      let s := store w in
      let '(es, execution') := persist_execution execution
                                 (Store.executions s) in
      let eid := default 0 (Execution.id execution') in
      let w0 := mkWorld (heap w)
                  (Store.mk es (Store.artifacts s) (Store.events s)
                     (Store.associations s) (Store.attributions s)) in
      let '(w1, in_ids) := put_artifacts INPUT eid w0 inputs in
      let '(w2, _) := put_artifacts output_event_type eid w1 outputs in
      let s2 := store w2 in
      (inr execution',
       mkWorld (heap w2)
         (Store.mk (Store.executions s2) (Store.artifacts s2)
            (Store.events s2)
            (Store.associations s2 ++ ((λ c, (c, eid)) <$> contexts))
            (Store.attributions s2
               ++ (c ← contexts; (λ i, (c, i)) <$> in_ids)))).

(** A new execution record of the given type, with the given state and
    properties, and no id yet. *)
Definition prepare_execution (execution_type : ExecutionType.t)
    (state : ExecutionState) (exec_properties : option (gmap string Value))
  : M Execution.t :=
  mret (Execution.mk None (ExecutionType.id execution_type) (Some state)
          (default ∅ exec_properties)).

Definition lib : ExecutionLib :=
  Build_ExecutionLib prepare_execution put_execution.

End Reference.

(** ** Concrete inputs *)

Module Examples.

Definition empty_store : Store.t := Store.mk [] [] [] [] [].

Definition ctx1 : Context.t := Context.mk (Some 1) "run".

(** Two skeleton artifacts of type 5, not yet live; the first already has
    the store id 7. *)
Definition m1 : Artifact.t := Artifact.mk (Some 7) (Some 5) None ∅ (Some PENDING).
Definition m2 : Artifact.t := Artifact.mk None (Some 5) None ∅ (Some PENDING).

Definition heap0 : addr → Artifact.t :=
  <[1%nat := m1]> (<[2%nat := m2]> (λ _, Artifact.mk None None None ∅ None)).

(** A store with one running execution, of id 1, and the record of the
    artifact of id 7. *)
Definition store1 : Store.t :=
  Store.mk [Execution.mk (Some 1) (Some 3) (Some RUNNING) ∅] [m1] [] [] [].

Definition world1 : World := mkWorld heap0 store1.

(** A world whose store has no execution at all. *)
Definition world0 : World := mkWorld heap0 empty_store.

(** Reported artifacts: of type 5 with a payload, and of type 6. *)
Definition r5 : Artifact.t :=
  Artifact.mk None (Some 5) (Some "gs://x") ∅ (Some PENDING).
Definition r6 : Artifact.t :=
  Artifact.mk None (Some 6) (Some "gs://y") ∅ (Some PENDING).

Definition report (entries : list (string * list Artifact.t)) : ExecutorOutput.t :=
  ExecutorOutput.mk (list_to_map (prod_map (λ k, k) ArtifactList.mk <$> entries)).

End Examples.

(** ** Pure views of the loops *)

(** The heap after the copies of a list of (object, reported record)
    pairs, in order. *)
Definition copied (pairs : list (addr * Artifact.t)) (h : addr → Artifact.t)
  : addr → Artifact.t :=
  foldl (λ h p, <[p.1 := p.2]> h) h pairs.

(** The heap after the objects of a list were marked [LIVE], in order. *)
Definition marked (objects : list addr) (h : addr → Artifact.t)
  : addr → Artifact.t :=
  foldl (λ h a, <[a := Artifact.set_state LIVE (h a)]> h) h objects.

(** Every pair of the list has the same type id on both sides. *)
Definition types_agree (h : addr → Artifact.t)
    (pairs : list (addr * Artifact.t)) : Prop :=
  Forall (λ p, Artifact.get_type_id (h p.1) = Artifact.get_type_id p.2) pairs.

(** The pairs that the merge of a channel walks through. *)
Definition channel_pairs (executor_output : ExecutorOutput.t)
    (item : string * list addr) : list (addr * Artifact.t) :=
  match ExecutorOutput.output_artifacts executor_output !! item.1 with
  | None => []
  | Some entry => zip item.2 (ArtifactList.artifacts entry)
  end.

(** A channel of the skeleton passes its checks: when the report has
    it, the lengths are equal and so are the type ids, pair by pair. *)
Definition channel_agrees (h : addr → Artifact.t)
    (executor_output : ExecutorOutput.t) (item : string * list addr) : Prop :=
  ∀ entry,
    ExecutorOutput.output_artifacts executor_output !! item.1 = Some entry →
    length item.2 = length (ArtifactList.artifacts entry)
    ∧ types_agree h (zip item.2 (ArtifactList.artifacts entry)).

(** The pairs that the merge of a dict walks through, channel after
    channel. *)
Definition report_pairs (executor_output : ExecutorOutput.t)
    (items : dict (list addr)) : list (addr * Artifact.t) :=
  items ≫= channel_pairs executor_output.

(** The subset constraint on the keys of the report. *)
Definition keys_subset (executor_output : ExecutorOutput.t)
    (output_artifacts : dict (list addr)) : Prop :=
  dom (ExecutorOutput.output_artifacts executor_output)
    ⊆ (list_to_set (keys output_artifacts) : gset string).

(** Two heaps give every object the same type id. *)
Definition same_types (h h' : addr → Artifact.t) : Prop :=
  ∀ a, Artifact.get_type_id (h' a) = Artifact.get_type_id (h a).

(** The three constraints hold of a skeleton and an optional report:
    the subset constraint, and every channel passes its checks.  They hold
    of an absent report. *)
Definition merge_passes (h : addr → Artifact.t)
    (output_artifacts : dict (list addr))
    (executor_output : option ExecutorOutput.t) : Prop :=
  match executor_output with
  | None => True
  | Some executor_output =>
      keys_subset executor_output output_artifacts
      ∧ Forall (channel_agrees h executor_output) output_artifacts
  end.

(** The pairs a passing merge copies. *)
Definition merged_pairs (output_artifacts : dict (list addr))
    (executor_output : option ExecutorOutput.t) : list (addr * Artifact.t) :=
  match executor_output with
  | None => []
  | Some executor_output => report_pairs executor_output output_artifacts
  end.

(** The report has the record [u] for the skeleton object [a]: they sit
    at the same index of the same channel. *)
Definition reported_at (executor_output : ExecutorOutput.t)
    (items : dict (list addr)) (a : addr) (u : Artifact.t) : Prop :=
  ∃ key l entry i,
    (key, l) ∈ items
    ∧ ExecutorOutput.output_artifacts executor_output !! key = Some entry
    ∧ l !! i = Some a
    ∧ ArtifactList.artifacts entry !! i = Some u.

(** The pairs the merge has copied when it reaches the pair at index
    [i] of a channel [l], reported as [reported], the channels [pre] coming
    before it in the skeleton. *)
Definition processed (executor_output : ExecutorOutput.t)
    (pre : dict (list addr)) (l : list addr) (reported : list Artifact.t)
    (i : nat) : list (addr * Artifact.t) :=
  report_pairs executor_output pre ++ take i (zip l reported).

(** The exception of the unpacking assignment on a list whose length is
    not 1. *)
Definition unpack_error {A} (xs : list A) : exn :=
  match xs with
  | [] => ValueError (not_enough_values 1 0)
  | _ => ValueError (too_many_values 1)
  end.

(** The world that [publish_succeeded_execution] has made when its merge
    has passed and its marking is done: the copies of the merge, then the
    marks, and the store as it was.  It is the world in which the call
    looks the execution up and calls the put. *)
Definition reconciled (output_artifacts : option (dict (list addr)))
    (executor_output : option ExecutorOutput.t) (w : World) : World :=
  mkWorld
    (marked (concat (values (or_empty output_artifacts)))
       (copied (merged_pairs (or_empty output_artifacts) executor_output)
          (heap w)))
    (store w).

(** A call of the put as a statement: its result is dropped. *)
Definition put_and_drop {lib : ExecutionLib} (execution : Execution.t)
    (contexts : list Context.t)
    (input_artifacts output_artifacts : option (dict (list addr)))
    (output_event_type : EventType) : M unit :=
  put_execution execution contexts input_artifacts output_artifacts
    output_event_type;;
  mret ().

(** [publish_succeeded_execution] goes on in the world [w_put]: there
    it looks the execution up and, when it finds exactly one, calls the put
    with the execution set to [COMPLETE], no input artifacts, the skeleton
    and the event type [OUTPUT]. *)
Definition continues_in {lib : ExecutionLib} (execution_id : Z)
    (contexts : list Context.t) (output_artifacts : option (dict (list addr)))
    (executor_output : option ExecutorOutput.t) (w w_put : World) : Prop :=
  publish_succeeded_execution execution_id contexts output_artifacts
    executor_output w
  = match Store.get_executions_by_id (store w) [execution_id] with
    | [x] =>
        put_and_drop (Execution.set_last_known_state COMPLETE x) contexts
          None (Some (or_empty output_artifacts)) OUTPUT w_put
    | xs => (inl (unpack_error xs), w_put)
    end.

(** Modelled from the spec: the contract of [prepare_execution]: the
    record it returns has the state it was given. *)
Definition prepare_contract (lib : ExecutionLib) : Prop :=
  ∀ execution_type state exec_properties w e w',
    prepare_execution execution_type state exec_properties w = (inr e, w') →
    Execution.last_known_state e = Some state.

(** Modelled from the spec: the contract of [put_execution] on the
    execution: when it returns, it returns the execution it was given with
    its id populated (the id it had, when it had one), and the store
    resolves this id to exactly the execution returned. *)
Definition put_contract (lib : ExecutionLib) : Prop :=
  ∀ e contexts ins outs ty w e' w',
    put_execution e contexts ins outs ty w = (inr e', w') →
    ∃ i,
      e' = Execution.set_id i e
      ∧ (∀ j, Execution.id e = Some j → i = j)
      ∧ Store.get_executions_by_id (store w') [i] = [e'].

(** The put writes to no artifact object other than those it is given. *)
Definition put_writes_given (lib : ExecutionLib) : Prop :=
  ∀ e contexts ins outs ty w a,
    a ∉ concat (values (or_empty ins)) →
    a ∉ concat (values (or_empty outs)) →
    heap (put_execution e contexts ins outs ty w).2 a = heap w a.

(** * Properties *)

(** ** Protocol buffers *)

Lemma CopyFrom_eq (self other : Artifact.t) :
  Artifact.CopyFrom self other = other.
Proof.
  destruct other as [i ty u ps st].
  unfold Artifact.CopyFrom, Artifact.MergeFrom, Artifact.Clear; simpl.
  rewrite (right_id_L ∅ (∪) ps).
  by destruct i, ty, u, st.
Qed.

(** ** Heaps *)

Lemma copied_app pairs1 pairs2 h :
  copied (pairs1 ++ pairs2) h = copied pairs2 (copied pairs1 h).
Proof. apply foldl_app. Qed.

Lemma copied_notin pairs h a :
  a ∉ pairs.*1 → copied pairs h a = h a.
Proof.
  revert h. induction pairs as [|[b u] pairs IH]; intros h Hn; [done|].
  simpl in *. apply not_elem_of_cons in Hn as [Hab Hn].
  unfold copied in *. simpl. rewrite IH by done.
  by rewrite fn_lookup_insert_ne.
Qed.

Lemma copied_lookup pairs h i a u :
  NoDup pairs.*1 → pairs !! i = Some (a, u) → copied pairs h a = u.
Proof.
  revert h i. induction pairs as [|[b v] pairs IH]; intros h i Hnd Hi; [done|].
  simpl in Hnd. apply NoDup_cons in Hnd as [Hb Hnd].
  destruct i as [|i]; simpl in Hi.
  - injection Hi as -> ->.
    change (copied pairs (<[a:=u]> h) a = u).
    rewrite copied_notin by done. apply fn_lookup_insert.
  - change (copied pairs (<[b:=v]> h) a = u). by eapply IH.
Qed.

Lemma copied_same_types pairs h :
  types_agree h pairs → same_types h (copied pairs h).
Proof.
  revert h. induction pairs as [|[b v] pairs IH]; intros h Hag a; [done|].
  apply Forall_cons in Hag as [Hb Hag]. simpl in Hb.
  assert (Hst : same_types h (<[b:=v]> h)).
  { intros x. destruct (decide (b = x)) as [->|Hne].
    - by rewrite fn_lookup_insert.
    - by rewrite fn_lookup_insert_ne. }
  change (Artifact.get_type_id (copied pairs (<[b:=v]> h) a)
          = Artifact.get_type_id (h a)).
  rewrite IH; [apply Hst|].
  eapply Forall_impl; [exact Hag|]. intros p Hp. simpl in *.
  by rewrite Hst.
Qed.

Lemma types_agree_same_types h h' pairs :
  same_types h h' → types_agree h pairs → types_agree h' pairs.
Proof.
  intros Hst Hag. eapply Forall_impl; [exact Hag|].
  intros p Hp. simpl in *. by rewrite Hst.
Qed.

Lemma marked_app objects1 objects2 h :
  marked (objects1 ++ objects2) h = marked objects2 (marked objects1 h).
Proof. apply foldl_app. Qed.

Lemma marked_cons b objects h :
  marked (b :: objects) h
  = marked objects (<[b := Artifact.set_state LIVE (h b)]> h).
Proof. reflexivity. Qed.

Lemma marked_lookup objects h a :
  marked objects h a
  = if decide (a ∈ objects) then Artifact.set_state LIVE (h a) else h a.
Proof.
  revert h. induction objects as [|b objects IH]; intros h.
  - by rewrite decide_False by apply not_elem_of_nil.
  - rewrite marked_cons, IH. destruct (decide (b = a)) as [->|Hne].
    + rewrite fn_lookup_insert.
      rewrite (decide_True (P := a ∈ a :: objects)) by apply list_elem_of_here.
      by destruct (decide (a ∈ objects)).
    + rewrite fn_lookup_insert_ne by done.
      destruct (decide (a ∈ objects)) as [Hin|Hin].
      * by rewrite decide_True by by apply list_elem_of_further.
      * rewrite decide_False; [done|].
        intros [?|?]%elem_of_cons; congruence.
Qed.

Lemma channel_agrees_same_types h h' eo items :
  same_types h h' →
  Forall (channel_agrees h eo) items → Forall (channel_agrees h' eo) items.
Proof.
  intros Hst Hag. eapply Forall_impl; [exact Hag|].
  intros item Hitem entry Hentry. destruct (Hitem entry Hentry) as [Hlen Hty].
  split; [done|]. by eapply types_agree_same_types.
Qed.

Lemma first_mismatch h pairs :
  ¬ types_agree h pairs →
  ∃ pre a u post,
    pairs = pre ++ (a, u) :: post ∧ types_agree h pre
    ∧ Artifact.get_type_id (h a) ≠ Artifact.get_type_id u.
Proof.
  induction pairs as [|[a u] pairs IH]; intros Hn.
  - destruct Hn. constructor.
  - destruct (decide (Artifact.get_type_id (h a) = Artifact.get_type_id u))
      as [Heq|Hne].
    + destruct IH as (pre & b & v & post & -> & Hpre & Hbv).
      { intros Hag. apply Hn. by constructor. }
      exists ((a, u) :: pre), b, v, post. split; [done|].
      split; [by constructor|done].
    + exists [], a, u, pairs. split; [done|]. split; [constructor|done].
Qed.

(** ** The loops of the merge *)

Lemma merge_artifacts_cons a u pairs w :
  merge_artifacts ((a, u) :: pairs) w
  = if bool_decide (Artifact.get_type_id (heap w a) ≠ Artifact.get_type_id u)
    then (inl (RuntimeError type_changed), w)
    else merge_artifacts pairs (mkWorld (<[a := u]> (heap w)) (store w)).
Proof.
  simpl. unfold mbind, M_bind, read_type_id, update_mlmd_artifact, raise.
  case_bool_decide; [done|]. by rewrite CopyFrom_eq.
Qed.

Lemma merge_artifacts_agree pairs w :
  types_agree (heap w) pairs →
  merge_artifacts pairs w
  = (inr (), mkWorld (copied pairs (heap w)) (store w)).
Proof.
  revert w. induction pairs as [|[a u] pairs IH]; intros w Hag.
  - by destruct w.
  - pose proof (copied_same_types [(a, u)] (heap w)) as Hst.
    apply Forall_cons in Hag as [Ha Hag]. simpl in Ha.
    rewrite merge_artifacts_cons, bool_decide_false by (intros ?; done).
    rewrite IH; [done|]. simpl.
    eapply types_agree_same_types; [|exact Hag].
    apply Hst. by repeat constructor.
Qed.

Lemma merge_artifacts_mismatch pre a u post w :
  types_agree (heap w) pre →
  Artifact.get_type_id (heap w a) ≠ Artifact.get_type_id u →
  merge_artifacts (pre ++ (a, u) :: post) w
  = (inl (RuntimeError type_changed),
     mkWorld (copied pre (heap w)) (store w)).
Proof.
  revert w. induction pre as [|[b v] pre IH]; intros w Hag Hne.
  - simpl app. rewrite merge_artifacts_cons, bool_decide_true by done.
    by destruct w.
  - pose proof (copied_same_types [(b, v)] (heap w)) as Hst.
    apply Forall_cons in Hag as [Hb Hag]. simpl in Hb.
    assert (Hst' : same_types (heap w) (<[b:=v]> (heap w))).
    { apply Hst. by repeat constructor. }
    change (((b, v) :: pre) ++ (a, u) :: post)
      with ((b, v) :: (pre ++ (a, u) :: post)).
    rewrite merge_artifacts_cons, bool_decide_false by (intros ?; done).
    rewrite IH; [done| |]; simpl.
    + by eapply types_agree_same_types.
    + by rewrite Hst'.
Qed.

Lemma merge_items_cons eo key l items w :
  merge_items eo ((key, l) :: items) w
  = match ExecutorOutput.output_artifacts eo !! key with
    | None => merge_items eo items w
    | Some entry =>
        if bool_decide (length l ≠ length (ArtifactList.artifacts entry))
        then (inl (RuntimeError partial_update), w)
        else match merge_artifacts (zip l (ArtifactList.artifacts entry)) w with
             | (inl e, w') => (inl e, w')
             | (inr _, w') => merge_items eo items w'
             end
    end.
Proof.
  simpl. destruct (ExecutorOutput.output_artifacts eo !! key); [|done].
  by case_bool_decide.
Qed.

Lemma report_pairs_cons eo item items :
  report_pairs eo (item :: items)
  = channel_pairs eo item ++ report_pairs eo items.
Proof. reflexivity. Qed.

Lemma channel_agrees_pairs h eo item :
  channel_agrees h eo item → types_agree h (channel_pairs eo item).
Proof.
  intros Hag. unfold channel_pairs.
  destruct (ExecutorOutput.output_artifacts eo !! item.1) as [entry|] eqn:E.
  - by destruct (Hag entry E).
  - constructor.
Qed.

Lemma merge_items_agree eo items w :
  Forall (channel_agrees (heap w) eo) items →
  merge_items eo items w
  = (inr (), mkWorld (copied (report_pairs eo items) (heap w)) (store w)).
Proof.
  revert w. induction items as [|[key l] items IH]; intros w Hag.
  - by destruct w.
  - apply Forall_cons in Hag as [Hitem Hag].
    pose proof (channel_agrees_pairs _ _ _ Hitem) as Hty.
    rewrite merge_items_cons, report_pairs_cons, copied_app.
    unfold channel_pairs in *. simpl in *.
    destruct (ExecutorOutput.output_artifacts eo !! key) as [entry|] eqn:E.
    + destruct (Hitem entry E) as [Hlen _].
      rewrite bool_decide_false by (intros ?; done).
      rewrite merge_artifacts_agree by done.
      rewrite IH; [done|]. simpl.
      eapply channel_agrees_same_types; [|exact Hag].
      by apply copied_same_types.
    + by rewrite IH.
Qed.

Lemma merge_items_app eo items1 items2 w :
  Forall (channel_agrees (heap w) eo) items1 →
  merge_items eo (items1 ++ items2) w
  = merge_items eo items2
      (mkWorld (copied (report_pairs eo items1) (heap w)) (store w)).
Proof.
  revert w. induction items1 as [|[key l] items1 IH]; intros w Hag.
  - by destruct w.
  - apply Forall_cons in Hag as [Hitem Hag].
    pose proof (channel_agrees_pairs _ _ _ Hitem) as Hty.
    change (((key, l) :: items1) ++ items2)
      with ((key, l) :: (items1 ++ items2)).
    rewrite merge_items_cons, report_pairs_cons, copied_app.
    unfold channel_pairs in *. simpl in *.
    destruct (ExecutorOutput.output_artifacts eo !! key) as [entry|] eqn:E.
    + destruct (Hitem entry E) as [Hlen _].
      rewrite bool_decide_false by (intros ?; done).
      rewrite merge_artifacts_agree by done.
      rewrite IH; [done|]. simpl.
      eapply channel_agrees_same_types; [|exact Hag].
      by apply copied_same_types.
    + by rewrite IH.
Qed.

Lemma report_pairs_agree h eo items :
  Forall (channel_agrees h eo) items → types_agree h (report_pairs eo items).
Proof.
  induction 1 as [|item items Hitem _ IH]; [constructor|].
  rewrite report_pairs_cons. apply Forall_app. split; [|done].
  by apply channel_agrees_pairs.
Qed.

Lemma merge_items_partial eo pre key l post entry w :
  Forall (channel_agrees (heap w) eo) pre →
  ExecutorOutput.output_artifacts eo !! key = Some entry →
  length l ≠ length (ArtifactList.artifacts entry) →
  merge_items eo (pre ++ (key, l) :: post) w
  = (inl (RuntimeError partial_update),
     mkWorld (copied (report_pairs eo pre) (heap w)) (store w)).
Proof.
  intros Hpre E Hlen.
  by rewrite merge_items_app, merge_items_cons, E, bool_decide_true.
Qed.

Lemma merge_items_type_changed eo pre key l post entry ppre a u ppost w :
  Forall (channel_agrees (heap w) eo) pre →
  ExecutorOutput.output_artifacts eo !! key = Some entry →
  length l = length (ArtifactList.artifacts entry) →
  zip l (ArtifactList.artifacts entry) = ppre ++ (a, u) :: ppost →
  types_agree (heap w) ppre →
  Artifact.get_type_id (heap w a) ≠ Artifact.get_type_id u →
  merge_items eo (pre ++ (key, l) :: post) w
  = (inl (RuntimeError type_changed),
     mkWorld (copied (report_pairs eo pre ++ ppre) (heap w)) (store w)).
Proof.
  intros Hpre E Hlen Hzip Hppre Hne.
  pose proof (copied_same_types _ _ (report_pairs_agree _ _ _ Hpre)) as Hst.
  rewrite merge_items_app, merge_items_cons, E by done.
  rewrite bool_decide_false by (intros ?; done).
  rewrite Hzip, merge_artifacts_mismatch; simpl.
  - by rewrite copied_app.
  - by eapply types_agree_same_types.
  - by rewrite Hst.
Qed.

(** Either every channel passes its checks, or there is a first channel
    that does not: its length differs from the reported one, or the
    lengths agree and some pair differs in type. *)
Lemma channels_first_failure h eo items :
  Forall (channel_agrees h eo) items
  ∨ ∃ pre key l post entry,
      items = pre ++ (key, l) :: post
      ∧ Forall (channel_agrees h eo) pre
      ∧ ExecutorOutput.output_artifacts eo !! key = Some entry
      ∧ (length l ≠ length (ArtifactList.artifacts entry)
         ∨ length l = length (ArtifactList.artifacts entry)
           ∧ ¬ types_agree h (zip l (ArtifactList.artifacts entry))).
Proof.
  induction items as [|[key l] items IH]; [left; constructor|].
  assert (Hhead : channel_agrees h eo (key, l)
    ∨ ∃ entry, ExecutorOutput.output_artifacts eo !! key = Some entry
      ∧ (length l ≠ length (ArtifactList.artifacts entry)
         ∨ length l = length (ArtifactList.artifacts entry)
           ∧ ¬ types_agree h (zip l (ArtifactList.artifacts entry)))).
  { destruct (ExecutorOutput.output_artifacts eo !! key) as [entry|] eqn:E.
    - destruct (decide (length l = length (ArtifactList.artifacts entry)))
        as [Hlen|Hlen]; [|right; eauto].
      destruct (decide (types_agree h (zip l (ArtifactList.artifacts entry))))
        as [Hty|Hty]; [|right; eauto].
      left. intros entry' E'. simpl in E'. by simplify_eq.
    - left. intros entry' E'. simpl in E'. congruence. }
  destruct Hhead as [Hhead|(entry & E & Hbad)].
  - destruct IH as [IH|(pre & k & l' & post & entry & -> & Hpre & E & Hbad)].
    + left. by constructor.
    + right. exists ((key, l) :: pre), k, l', post, entry.
      split; [done|]. split; [by constructor|done].
  - right. exists [], key, l, items, entry. split; [done|].
    split; [constructor|done].
Qed.

(** The merge loop never touches the store, keeps every type id, and
    raises nothing but its two errors. *)
Lemma merge_items_outcome eo items w :
  ∃ r h',
    merge_items eo items w = (r, mkWorld h' (store w))
    ∧ same_types (heap w) h'
    ∧ (r = inr ()
       ∨ r = inl (RuntimeError partial_update)
       ∨ r = inl (RuntimeError type_changed))
    ∧ (r = inr () ↔ Forall (channel_agrees (heap w) eo) items).
Proof.
  destruct (channels_first_failure (heap w) eo items)
    as [Hag|(pre & key & l & post & entry & -> & Hpre & E & Hbad)].
  - eexists _, _. split; [by apply merge_items_agree|].
    split; [by apply copied_same_types, report_pairs_agree|].
    split; [by left|done].
  - assert (Hnot : ¬ Forall (channel_agrees (heap w) eo)
                       (pre ++ (key, l) :: post)).
    { intros Hall. apply Forall_app in Hall as [_ Hall].
      apply Forall_cons in Hall as [Hitem _].
      destruct (Hitem entry E) as [Hlen Hty]. simpl in *.
      destruct Hbad as [?|[_ ?]]; done. }
    destruct Hbad as [Hlen|[Hlen Hty]].
    + eexists _, _. split; [by eapply merge_items_partial|].
      split; [by apply copied_same_types, report_pairs_agree|].
      split; [by right; left|]. split; [done|]. intros; done.
    + apply first_mismatch in Hty
        as (ppre & a & u & ppost & Hzip & Hppre & Hne).
      eexists _, _. split; [by eapply merge_items_type_changed|].
      split.
      { apply copied_same_types. apply Forall_app. split; [|done].
        by apply report_pairs_agree. }
      split; [by right; right|]. split; [done|]. intros; done.
Qed.

(** ** Marking the outputs live *)

Lemma mark_artifact_list_eq artifact_list w :
  mark_artifact_list artifact_list w
  = (inr (), mkWorld (marked artifact_list (heap w)) (store w)).
Proof.
  revert w. induction artifact_list as [|a artifact_list IH]; intros w.
  - by destruct w.
  - simpl. unfold mbind, M_bind, update_mlmd_artifact. by rewrite IH.
Qed.

Lemma mark_live_eq lists w :
  mark_live lists w
  = (inr (), mkWorld (marked (concat lists) (heap w)) (store w)).
Proof.
  revert w. induction lists as [|l lists IH]; intros w.
  - by destruct w.
  - simpl. unfold mbind, M_bind. rewrite mark_artifact_list_eq, IH.
    by rewrite marked_app.
Qed.

(** ** The operations, step by step *)

Lemma unpack1_eq {A} (xs : list A) w :
  unpack1 xs w
  = match xs with
    | [x] => (inr x, w)
    | _ => (inl (unpack_error xs), w)
    end.
Proof. by destruct xs as [|x [|y xs]]. Qed.

Lemma put_and_drop_eq {lib : ExecutionLib} e contexts ins outs ty w :
  put_and_drop e contexts ins outs ty w
  = match put_execution e contexts ins outs ty w with
    | (inl err, w') => (inl err, w')
    | (inr _, w') => (inr (), w')
    end.
Proof. reflexivity. Qed.

Lemma publish_cached_execution_eq {lib : ExecutionLib}
    contexts execution_id oa w :
  publish_cached_execution contexts execution_id oa w
  = match Store.get_executions_by_id (store w) [execution_id] with
    | [x] =>
        put_and_drop (Execution.set_last_known_state CACHED x) contexts None
          oa OUTPUT w
    | xs => (inl (unpack_error xs), w)
    end.
Proof.
  unfold publish_cached_execution, mbind, M_bind, get_executions_by_id.
  rewrite unpack1_eq.
  by destruct (Store.get_executions_by_id _ _) as [|x [|y xs]].
Qed.

Lemma publish_failed_execution_eq {lib : ExecutionLib}
    contexts execution_id w :
  publish_failed_execution contexts execution_id w
  = match Store.get_executions_by_id (store w) [execution_id] with
    | [x] =>
        put_and_drop (Execution.set_last_known_state FAILED x) contexts None
          None OUTPUT w
    | xs => (inl (unpack_error xs), w)
    end.
Proof.
  unfold publish_failed_execution, mbind, M_bind, get_executions_by_id.
  rewrite unpack1_eq.
  by destruct (Store.get_executions_by_id _ _) as [|x [|y xs]].
Qed.

Lemma publish_internal_execution_eq {lib : ExecutionLib}
    contexts execution_id oa w :
  publish_internal_execution contexts execution_id oa w
  = match Store.get_executions_by_id (store w) [execution_id] with
    | [x] =>
        put_and_drop (Execution.set_last_known_state COMPLETE x) contexts
          None oa INTERNAL_OUTPUT w
    | xs => (inl (unpack_error xs), w)
    end.
Proof.
  unfold publish_internal_execution, mbind, M_bind, get_executions_by_id.
  rewrite unpack1_eq.
  by destruct (Store.get_executions_by_id _ _) as [|x [|y xs]].
Qed.

Lemma publish_succeeded_execution_eq {lib : ExecutionLib}
    execution_id contexts oa eo w :
  publish_succeeded_execution execution_id contexts oa eo w
  = match merge_executor_output (or_empty oa) eo w with
    | (inl e, w1) => (inl e, w1)
    | (inr _, w1) =>
        let w2 :=
          mkWorld (marked (concat (values (or_empty oa))) (heap w1))
            (store w1) in
        match Store.get_executions_by_id (store w1) [execution_id] with
        | [x] =>
            put_and_drop (Execution.set_last_known_state COMPLETE x) contexts
              None (Some (or_empty oa)) OUTPUT w2
        | xs => (inl (unpack_error xs), w2)
        end
    end.
Proof.
  unfold publish_succeeded_execution, mbind, M_bind, get_executions_by_id.
  destruct (merge_executor_output _ _ _) as [[e|[]] w1]; [done|].
  rewrite mark_live_eq, unpack1_eq. simpl.
  by destruct (Store.get_executions_by_id _ _) as [|x [|y xs]].
Qed.

(** The validation either passes, and then copies the reported records,
    or raises one of its three errors; the store is not touched. *)
Lemma merge_executor_output_outcome oa eo w :
  (merge_passes (heap w) oa eo
   ∧ merge_executor_output oa eo w
     = (inr (), mkWorld (copied (merged_pairs oa eo) (heap w)) (store w)))
  ∨ (¬ merge_passes (heap w) oa eo
     ∧ ∃ m h',
         merge_executor_output oa eo w
         = (inl (RuntimeError m), mkWorld h' (store w))).
Proof.
  destruct eo as [eo|]; simpl.
  - unfold keys_subset.
    destruct (decide (dom (ExecutorOutput.output_artifacts eo)
                        ⊆ (list_to_set (keys oa) : gset string)))
      as [Hsub|Hsub].
    + rewrite bool_decide_true by done. simpl.
      destruct (merge_items_outcome eo oa w)
        as (r & h' & Hrun & _ & Hr & Hiff).
      destruct Hr as [->|Hr].
      * left. split; [split; [done|by apply Hiff]|].
        apply merge_items_agree. by apply Hiff.
      * right. split.
        { intros [_ Hall]. apply Hiff in Hall. destruct Hr; congruence. }
        destruct Hr as [->| ->]; eauto.
    + rewrite bool_decide_false by done. simpl. right.
      split; [by intros [? _]|].
      exists (more_keys eo oa), (heap w). by destruct w.
  - left. split; [done|]. by destruct w.
Qed.

(** ** Failing channels *)

Lemma channel_disagrees_length h eo key l entry :
  ExecutorOutput.output_artifacts eo !! key = Some entry →
  length l ≠ length (ArtifactList.artifacts entry) →
  ¬ channel_agrees h eo (key, l).
Proof. intros E Hlen Hag. by destruct (Hag entry E). Qed.

Lemma channel_disagrees_type h eo key l entry i a u :
  ExecutorOutput.output_artifacts eo !! key = Some entry →
  l !! i = Some a →
  ArtifactList.artifacts entry !! i = Some u →
  Artifact.get_type_id (h a) ≠ Artifact.get_type_id u →
  ¬ types_agree h (zip l (ArtifactList.artifacts entry))
  ∧ ¬ channel_agrees h eo (key, l).
Proof.
  intros E Ha Hu Hne.
  assert (Hn : ¬ types_agree h (zip l (ArtifactList.artifacts entry))).
  { intros Hty. apply Hne.
    apply (proj1 (Forall_lookup _ _) Hty i (a, u)).
    apply lookup_zip_with_Some. by exists a, u. }
  split; [done|]. intros Hag. by destruct (Hag entry E).
Qed.

Lemma merge_fails_of_channel h eo items item :
  item ∈ items → ¬ channel_agrees h eo item →
  ¬ merge_passes h items (Some eo).
Proof.
  intros Hin Hbad [_ Hall]. apply Hbad.
  by apply (proj1 (Forall_forall _ _) Hall).
Qed.

(** A failed validation ends the call at once, with its error, before
    the store is read or written. *)
Lemma merge_failure_raises {lib : ExecutionLib}
    execution_id contexts oa eo w :
  ¬ merge_passes (heap w) (or_empty oa) eo →
  ∃ m,
    (publish_succeeded_execution execution_id contexts oa eo w).1
    = inl (RuntimeError m)
    ∧ store (publish_succeeded_execution execution_id contexts oa eo w).2
      = store w.
Proof.
  intros Hfail. rewrite publish_succeeded_execution_eq.
  destruct (merge_executor_output_outcome (or_empty oa) eo w)
    as [[Hpass _]|[_ (m & h' & ->)]]; [done|].
  by exists m.
Qed.

(** A passing validation is followed by the marking, the lookup and,
    when the lookup gives one execution, the put. *)
Lemma merge_pass_continues {lib : ExecutionLib}
    execution_id contexts oa eo w :
  merge_passes (heap w) (or_empty oa) eo →
  publish_succeeded_execution execution_id contexts oa eo w
  = match Store.get_executions_by_id (store w) [execution_id] with
    | [x] =>
        put_and_drop (Execution.set_last_known_state COMPLETE x) contexts
          None (Some (or_empty oa)) OUTPUT (reconciled oa eo w)
    | xs => (inl (unpack_error xs), reconciled oa eo w)
    end.
Proof.
  intros Hpass. rewrite publish_succeeded_execution_eq.
  by destruct (merge_executor_output_outcome (or_empty oa) eo w)
    as [[_ ->]|[Hfail _]].
Qed.

Lemma merge_pass_lookup_fails {lib : ExecutionLib}
    execution_id contexts oa eo w :
  merge_passes (heap w) (or_empty oa) eo →
  length (Store.get_executions_by_id (store w) [execution_id]) ≠ 1%nat →
  publish_succeeded_execution execution_id contexts oa eo w
  = (inl (unpack_error (Store.get_executions_by_id (store w) [execution_id])),
     reconciled oa eo w).
Proof.
  intros Hpass Hlen. rewrite merge_pass_continues by done.
  by destruct (Store.get_executions_by_id _ _) as [|x [|y xs]].
Qed.

Lemma succeeded_implies_merge_passes {lib : ExecutionLib}
    execution_id contexts oa eo w :
  (publish_succeeded_execution execution_id contexts oa eo w).1 = inr () →
  merge_passes (heap w) (or_empty oa) eo.
Proof.
  rewrite publish_succeeded_execution_eq.
  destruct (merge_executor_output_outcome (or_empty oa) eo w)
    as [[Hpass _]|[_ (m & h' & ->)]]; done.
Qed.

(** ** Which object holds which record *)

Lemma elem_of_concat {A} (x : A) (ls : list (list A)) :
  x ∈ concat ls ↔ ∃ l, x ∈ l ∧ l ∈ ls.
Proof.
  induction ls as [|l ls IH]; simpl.
  - split; [by intros ?%elem_of_nil|]. by intros (l & _ & ?%elem_of_nil).
  - rewrite elem_of_app, IH. split.
    + intros [Hx|(l' & Hx & Hl')].
      * exists l. split; [done|apply list_elem_of_here].
      * exists l'. split; [done|by apply list_elem_of_further].
    + intros (l' & Hx & [->|Hl']%elem_of_cons); [by left|].
      right. by exists l'.
Qed.

Lemma elem_of_values (key : string) (l : list addr) (items : dict (list addr)) :
  (key, l) ∈ items → l ∈ values items.
Proof.
  intros Hin. unfold values. apply list_elem_of_fmap. by exists (key, l).
Qed.

Lemma fst_zip_sublist {A B} (l : list A) (k : list B) :
  (zip l k).*1 `sublist_of` l.
Proof.
  revert k. induction l as [|x l IH]; intros [|y k]; simpl;
    try constructor; [apply sublist_nil_l|apply IH].
Qed.

Lemma channel_pairs_sublist eo (item : string * list addr) :
  (channel_pairs eo item).*1 `sublist_of` item.2.
Proof.
  unfold channel_pairs.
  destruct (ExecutorOutput.output_artifacts eo !! item.1).
  - apply fst_zip_sublist.
  - apply sublist_nil_l.
Qed.

Lemma report_pairs_sublist eo (items : dict (list addr)) :
  (report_pairs eo items).*1 `sublist_of` concat (values items).
Proof.
  induction items as [|item items IH]; [done|].
  rewrite report_pairs_cons, fmap_app. simpl.
  apply sublist_app; [apply channel_pairs_sublist|done].
Qed.

Lemma copied_elem pairs h a u :
  NoDup pairs.*1 → (a, u) ∈ pairs → copied pairs h a = u.
Proof.
  intros Hnd [i Hi]%list_elem_of_lookup_1. by eapply copied_lookup.
Qed.

Lemma reported_at_elem eo items a u :
  reported_at eo items a u → (a, u) ∈ report_pairs eo items.
Proof.
  intros (key & l & entry & i & Hin & E & Ha & Hu).
  unfold report_pairs. apply list_elem_of_bind. exists (key, l).
  split; [|done]. unfold channel_pairs. simpl. rewrite E.
  apply (list_elem_of_lookup_2 _ i). apply lookup_zip_with_Some.
  by exists a, u.
Qed.

Lemma reported_at_in_skeleton eo items a u :
  reported_at eo items a u → a ∈ concat (values items).
Proof.
  intros (key & l & entry & i & Hin & E & Ha & Hu).
  apply elem_of_concat. exists l.
  split; [by eapply list_elem_of_lookup_2|by eapply elem_of_values].
Qed.

(** After the copies of a list of pairs, an object of the list holds a
    record that the list pairs it with: the one of the pair itself when no
    object occurs twice. *)
Lemma copied_holds pairs h a :
  a ∈ pairs.*1 → ∃ u, (a, u) ∈ pairs ∧ copied pairs h a = u.
Proof.
  induction pairs as [|[b v] pairs IH] using rev_ind; intros Ha.
  - by apply elem_of_nil in Ha.
  - rewrite copied_app. change (copied [(b, v)] ?h') with (<[b:=v]> h').
    destruct (decide (b = a)) as [->|Hne].
    + exists v. rewrite fn_lookup_insert. split; [|done].
      apply elem_of_app. right. apply list_elem_of_here.
    + rewrite fn_lookup_insert_ne by done.
      rewrite fmap_app in Ha. apply elem_of_app in Ha as [Ha|Ha].
      * destruct (IH Ha) as (u & Hu & Heq). exists u. split; [|done].
        apply elem_of_app. by left.
      * simpl in Ha. apply list_elem_of_singleton in Ha. congruence.
Qed.

Lemma copied_reported pairs h a u :
  (a, u) ∈ pairs →
  ∃ v, (a, v) ∈ pairs ∧ copied pairs h a = v ∧ (NoDup pairs.*1 → v = u).
Proof.
  intros Hin.
  destruct (copied_holds pairs h a) as (v & Hv & Heq).
  { apply list_elem_of_fmap. by exists (a, u). }
  exists v. split; [done|]. split; [done|].
  intros Hnd. rewrite <- Heq. by apply copied_elem.
Qed.

Lemma elem_reported_at eo items a u :
  (a, u) ∈ report_pairs eo items → reported_at eo items a u.
Proof.
  unfold report_pairs.
  intros ([key l] & Hpair & Hitem)%list_elem_of_bind.
  unfold channel_pairs in Hpair. simpl in Hpair.
  destruct (ExecutorOutput.output_artifacts eo !! key) as [entry|] eqn:E;
    [|by apply elem_of_nil in Hpair].
  apply list_elem_of_lookup_1 in Hpair as [i Hi].
  apply lookup_zip_with_Some in Hi as (a' & u' & Heq & Ha & Hu).
  injection Heq as -> ->. by exists key, l, entry, i.
Qed.

(** A passing merge followed by the marking leaves in each reported
    object a record reported for it, marked live. *)
Lemma merged_and_marked eo items h a u :
  reported_at eo items a u →
  ∃ v,
    reported_at eo items a v
    ∧ marked (concat (values items)) (copied (report_pairs eo items) h) a
      = Artifact.set_state LIVE v
    ∧ (NoDup (concat (values items)) → v = u).
Proof.
  intros Hrep.
  destruct (copied_reported (report_pairs eo items) h a u)
    as (v & Hv & Heq & Hnd); [by apply reported_at_elem|].
  exists v. split; [by apply elem_reported_at|]. split.
  - rewrite marked_lookup.
    rewrite decide_True by by eapply reported_at_in_skeleton.
    by rewrite Heq.
  - intros Hnd'. apply Hnd.
    eapply sublist_NoDup; [exact Hnd'|apply report_pairs_sublist].
Qed.

(** ** What is processed before a raise *)

Lemma values_middle (pre : dict (list addr)) key l post :
  concat (values (pre ++ (key, l) :: post))
  = concat (values pre) ++ l ++ concat (values post).
Proof. unfold values. by rewrite fmap_app, concat_app. Qed.

Lemma processed_NoDup eo pre key l post (reported : list Artifact.t) n :
  NoDup (concat (values (pre ++ (key, l) :: post))) →
  NoDup (processed eo pre l reported n).*1.
Proof.
  intros Hnd. unfold processed. eapply sublist_NoDup; [exact Hnd|].
  rewrite values_middle, fmap_app.
  apply sublist_app; [apply report_pairs_sublist|].
  apply sublist_inserts_r. rewrite fmap_take.
  etrans; [apply sublist_take|apply fst_zip_sublist].
Qed.


(** ** The reference store meets the contract *)

Lemma fresh_id_above used x : x ∈ used → x < Reference.fresh_id used.
Proof.
  unfold Reference.fresh_id. induction used as [|y used IH]; intros Hx.
  - by apply elem_of_nil in Hx.
  - simpl. apply elem_of_cons in Hx as [->|Hx]; [lia|].
    specialize (IH Hx). lia.
Qed.

Lemma get_executions_by_id_elem s execution_id x :
  x ∈ Store.get_executions_by_id s [execution_id] →
  Execution.id x = Some execution_id ∧ x ∈ Store.executions s.
Proof.
  unfold Store.get_executions_by_id. intros [Hid Hx]%list_elem_of_filter.
  split; [|done]. simpl in Hid. by apply list_elem_of_singleton in Hid.
Qed.

Lemma get_executions_by_id_one s execution_id x :
  Store.get_executions_by_id s [execution_id] = [x] →
  Execution.id x = Some execution_id.
Proof.
  intros Hget.
  assert (Hx : x ∈ Store.get_executions_by_id s [execution_id])
    by (rewrite Hget; apply list_elem_of_here).
  by apply get_executions_by_id_elem in Hx as [Hid _].
Qed.

Lemma set_id_same e i : Execution.id e = Some i → Execution.set_id i e = e.
Proof. destruct e; simpl; by intros ->. Qed.

Lemma filter_persisted (e : Execution.t) execution_id (es : list Execution.t) :
  Execution.id e = Some execution_id →
  filter (λ x, Execution.id x ∈ Some <$> [execution_id])
    ((λ x, if decide (Execution.id x = Execution.id e) then e else x) <$> es)
  = (λ _, e) <$> filter (λ x, Execution.id x ∈ Some <$> [execution_id]) es.
Proof.
  intros He. induction es as [|x es IH]; [done|].
  csimpl in *. rewrite !filter_cons, IH. simpl.
  destruct (decide (Execution.id x = Execution.id e)) as [Hx|Hx].
  - rewrite decide_True by (rewrite He; apply list_elem_of_here).
    destruct (decide (Execution.id x ∈ [Some execution_id])) as [|Hn]; [done|].
    destruct Hn. rewrite Hx, He. apply list_elem_of_here.
  - destruct (decide (Execution.id x ∈ [Some execution_id]))
      as [Hin%list_elem_of_singleton|]; [congruence|done].
Qed.

(** Persisting over an execution that is stored exactly once leaves it
    stored exactly once, as persisted; persisting an execution without an
    id stores it exactly once under a new id. *)
Lemma persist_execution_stored s e es' e' :
  Reference.known_execution s e = true →
  Reference.persist_execution e (Store.executions s) = (es', e') →
  ∃ i,
    e' = Execution.set_id i e
    ∧ (∀ j, Execution.id e = Some j → i = j)
    ∧ filter (λ y, Execution.id y ∈ Some <$> [i]) es' = [e'].
Proof.
  unfold Reference.known_execution, Reference.persist_execution.
  destruct (Execution.id e) as [j|] eqn:He.
  - intros Hknown%bool_decide_eq_true_1 [= <- <-].
    exists j. split; [by rewrite set_id_same|].
    split; [by intros ? [= ->]|].
    unfold Store.get_executions_by_id in Hknown.
    unfold Reference.update_execution. rewrite filter_persisted by done.
    by destruct (filter _ (Store.executions s)) as [|x [|y xs]].
  - intros _ [= <- <-].
    set (i := Reference.fresh_id (omap Execution.id (Store.executions s))).
    exists i. split; [done|]. split; [done|].
    assert (Hfresh : ∀ x, x ∈ Store.executions s → Execution.id x ≠ Some i).
    { intros x Hx Hid.
      assert (i < i); [|lia]. apply fresh_id_above.
      apply list_elem_of_omap. by exists x. }
    assert (Hnone : filter (λ y, Execution.id y ∈ Some <$> [i])
                      (Store.executions s) = []).
    { destruct (filter _ (Store.executions s)) as [|x l] eqn:E; [done|].
      assert (Hx : x ∈ filter (λ y, Execution.id y ∈ Some <$> [i])
                         (Store.executions s))
        by (rewrite E; apply list_elem_of_here).
      apply list_elem_of_filter in Hx as [Hid Hx].
      simpl in Hid. apply list_elem_of_singleton in Hid.
      by destruct (Hfresh x Hx). }
    rewrite filter_app, Hnone. simpl.
    rewrite filter_cons, decide_True; [done|]. simpl. apply list_elem_of_here.
Qed.

Lemma put_artifacts_executions ty eid w objects :
  Store.executions (store (Reference.put_artifacts ty eid w objects).1)
  = Store.executions (store w).
Proof.
  revert w. induction objects as [|a objects IH]; intros w; [done|].
  cbn [Reference.put_artifacts].
  assert (H1 : Store.executions (store (Reference.put_artifact ty eid w a).1)
               = Store.executions (store w)).
  { unfold Reference.put_artifact. by destruct (Artifact.id (heap w a)). }
  destruct (Reference.put_artifact ty eid w a) as [w1 aid].
  specialize (IH w1).
  destruct (Reference.put_artifacts ty eid w1 objects) as [w2 aids].
  simpl in *. by rewrite IH.
Qed.

Lemma put_artifacts_frame ty eid w objects a :
  a ∉ objects →
  heap (Reference.put_artifacts ty eid w objects).1 a = heap w a.
Proof.
  revert w. induction objects as [|b objects IH]; intros w Ha; [done|].
  apply not_elem_of_cons in Ha as [Hab Ha].
  cbn [Reference.put_artifacts].
  assert (H1 : heap (Reference.put_artifact ty eid w b).1 a = heap w a).
  { unfold Reference.put_artifact.
    destruct (Artifact.id (heap w b)); simpl; [done|].
    by rewrite fn_lookup_insert_ne. }
  destruct (Reference.put_artifact ty eid w b) as [w1 aid].
  specialize (IH w1 Ha).
  destruct (Reference.put_artifacts ty eid w1 objects) as [w2 aids].
  simpl in *. by rewrite IH.
Qed.

(** What the put of the reference store does when it returns. *)
Lemma reference_put_returns e contexts ins outs ty w e' w' :
  Reference.put_execution e contexts ins outs ty w = (inr e', w') →
  Reference.known_execution (store w) e = true
  ∧ Reference.persist_execution e (Store.executions (store w))
    = (Store.executions (store w'), e')
  ∧ ∀ a, a ∉ concat (values (or_empty ins)) →
         a ∉ concat (values (or_empty outs)) →
         heap w' a = heap w a.
Proof.
  unfold Reference.put_execution. intros Hput. cbv zeta in Hput.
  destruct (Reference.known_execution (store w) e) eqn:Hknown;
    [|discriminate Hput].
  destruct (forallb _ _); [|discriminate Hput]. simpl in Hput.
  destruct (Reference.persist_execution e (Store.executions (store w)))
    as [es e1].
  match type of Hput with
  | context [Reference.put_artifacts INPUT ?j ?w0 ?objs] =>
      pose proof (put_artifacts_executions INPUT j w0 objs) as Hin;
      pose proof (λ a, put_artifacts_frame INPUT j w0 objs a) as Fin;
      destruct (Reference.put_artifacts INPUT j w0 objs) as [w1 in_ids]
  end.
  match type of Hput with
  | context [Reference.put_artifacts ty ?j w1 ?objs] =>
      pose proof (put_artifacts_executions ty j w1 objs) as Hout;
      pose proof (λ a, put_artifacts_frame ty j w1 objs a) as Fout;
      destruct (Reference.put_artifacts ty j w1 objs) as [w2 out_ids]
  end.
  injection Hput as <- <-. simpl in *.
  split; [done|]. split; [by rewrite Hout, Hin|].
  intros a Ha_in Ha_out. by rewrite Fout, Fin.
Qed.

Lemma reference_put_contract : put_contract Reference.lib.
Proof.
  intros e contexts ins outs ty w e' w' Hput. simpl in Hput.
  apply reference_put_returns in Hput as (Hknown & Hex & _).
  by apply (persist_execution_stored _ _ _ _ Hknown) in Hex.
Qed.

Lemma reference_prepare_contract : prepare_contract Reference.lib.
Proof.
  intros execution_type state exec_properties w e w' Hprep.
  simpl in Hprep. by injection Hprep as <- <-.
Qed.

Lemma reference_put_writes_given : put_writes_given Reference.lib.
Proof.
  intros e contexts ins outs ty w a Ha_in Ha_out. simpl.
  destruct (Reference.put_execution e contexts ins outs ty w)
    as [[err|e'] w'] eqn:Hput.
  - unfold Reference.put_execution in Hput.
    destruct (negb _); [by injection Hput as <- <-|].
    destruct (Reference.persist_execution _ _) as [es e1].
    destruct (Reference.put_artifacts INPUT _ _ _) as [w1 in_ids].
    by destruct (Reference.put_artifacts ty _ w1 _) as [w2 out_ids].
  - by apply reference_put_returns in Hput as (_ & _ & ->).
Qed.
(** ** The claims *)

Import Examples.

(** C3: when the executor output has a key that the output skeleton
    lacks, [publish_succeeded_execution] raises the "contains more keys"
    [RuntimeError], whose message is formatted from the executor output
    (and so names the offending key) and from the skeleton; the artifact
    objects and the store are exactly as they were before the call. *)
Theorem C3_unknown_channel_aborts {lib : ExecutionLib} execution_id contexts oa eo w key :
  key ∈ dom (ExecutorOutput.output_artifacts eo) →
  key ∉ keys (or_empty oa) →
  publish_succeeded_execution execution_id contexts oa (Some eo) w
  = (inl (RuntimeError (more_keys eo (or_empty oa))), w).
Proof.
  intros Hin Hout. rewrite publish_succeeded_execution_eq. simpl.
  rewrite bool_decide_false; [done|].
  intros Hsub. apply Hout. specialize (Hsub key Hin).
  by apply elem_of_list_to_set in Hsub.
Qed.

Lemma C3_witness :
  publish_succeeded_execution (lib := Reference.lib) 1 [ctx1] (Some [("model", [1%nat])])
    (Some (report [("model", [r5]); ("extra", [r5])])) world1
  = (inl (RuntimeError
            (more_keys (report [("model", [r5]); ("extra", [r5])])
               [("model", [1%nat])])),
     world1).
Proof.
  apply (C3_unknown_channel_aborts (lib := Reference.lib) 1 [ctx1] (Some [("model", [1%nat])])
           (report [("model", [r5]); ("extra", [r5])]) world1 "extra").
  - compute_done.
  - compute_done.
Defined.

(** C7: whenever the merge validation fails (an unknown key, a channel
    reported in part, or a changed artifact type),
    [publish_succeeded_execution] raises a [RuntimeError] and the store is
    the one the call started with: the put is never issued. *)
Theorem C7_no_write_on_merge_failure {lib : ExecutionLib} execution_id contexts oa eo w :
  ¬ merge_passes (heap w) (or_empty oa) eo →
  ∃ m,
    (publish_succeeded_execution execution_id contexts oa eo w).1
    = inl (RuntimeError m)
    ∧ store (publish_succeeded_execution execution_id contexts oa eo w).2
      = store w.
Proof. apply merge_failure_raises. Qed.

Lemma C7_witness :
  ∃ m,
    (publish_succeeded_execution (lib := Reference.lib) 1 [ctx1]
       (Some [("model", [1%nat; 2%nat])])
       (Some (report [("model", [r5])])) world1).1
    = inl (RuntimeError m)
    ∧ store (publish_succeeded_execution (lib := Reference.lib) 1 [ctx1]
               (Some [("model", [1%nat; 2%nat])])
               (Some (report [("model", [r5])])) world1).2
      = store1.
Proof.
  apply (C7_no_write_on_merge_failure (lib := Reference.lib) 1 [ctx1]
           (Some [("model", [1%nat; 2%nat])])
           (Some (report [("model", [r5])])) world1).
  intros [_ Hall]. apply Forall_cons in Hall as [Hmodel _].
  destruct (Hmodel (ArtifactList.mk [r5])) as [Hlen _]; [compute_done|].
  discriminate Hlen.
Defined.

(** C2, as the code has it: with an execution id that does not resolve
    to exactly one stored execution, [publish_cached_execution],
    [publish_failed_execution] and [publish_internal_execution] raise the
    [ValueError] of the unpacking assignment and change nothing;
    [publish_succeeded_execution] fails as well and writes nothing to the
    store, with that [ValueError] when the merge validation passes and with
    the [RuntimeError] of the validation otherwise, since it validates
    before it looks the execution up. *)
Theorem C2_unresolved_execution_fails {lib : ExecutionLib} execution_id contexts oa eo w :
  length (Store.get_executions_by_id (store w) [execution_id]) ≠ 1%nat →
  let lookup_error :=
    unpack_error (Store.get_executions_by_id (store w) [execution_id]) in
  let succeeded :=
    publish_succeeded_execution execution_id contexts oa eo w in
  publish_cached_execution contexts execution_id oa w = (inl lookup_error, w)
  ∧ publish_failed_execution contexts execution_id w = (inl lookup_error, w)
  ∧ publish_internal_execution contexts execution_id oa w
    = (inl lookup_error, w)
  ∧ store succeeded.2 = store w
  ∧ (merge_passes (heap w) (or_empty oa) eo → succeeded.1 = inl lookup_error)
  ∧ (¬ merge_passes (heap w) (or_empty oa) eo →
     ∃ m, succeeded.1 = inl (RuntimeError m)).
Proof.
  intros Hlen lookup_error succeeded. subst lookup_error succeeded.
  rewrite publish_cached_execution_eq, publish_failed_execution_eq,
    publish_internal_execution_eq, publish_succeeded_execution_eq.
  destruct (merge_executor_output_outcome (or_empty oa) eo w)
    as [[Hpass ->]|[Hfail (m & h' & ->)]]; simpl;
    destruct (Store.get_executions_by_id (store w) [execution_id])
      as [|x [|y xs]]; try done; repeat split; try done; eauto.
Qed.

Lemma C2_witness :
  publish_cached_execution (lib := Reference.lib) [ctx1] 1 None world0
  = (inl (ValueError (not_enough_values 1 0)), world0)
  ∧ publish_failed_execution (lib := Reference.lib) [ctx1] 1 world0
    = (inl (ValueError (not_enough_values 1 0)), world0)
  ∧ publish_internal_execution (lib := Reference.lib) [ctx1] 1 None world0
    = (inl (ValueError (not_enough_values 1 0)), world0)
  ∧ (publish_succeeded_execution (lib := Reference.lib) 1 [ctx1] None None world0).1
    = inl (ValueError (not_enough_values 1 0)).
Proof.
  destruct (C2_unresolved_execution_fails (lib := Reference.lib) 1 [ctx1] None None world0)
    as (Hc & Hf & Hi & _ & Hs & _); [compute_done|].
  split; [exact Hc|]. split; [exact Hf|]. split; [exact Hi|].
  apply Hs. exact I.
Defined.

(** C2 as stated fails: on a store without the execution, a call whose
    report has an unknown key raises the [RuntimeError] of the merge, not
    the error of the lookup. *)
Lemma C2_counterexample :
  Store.get_executions_by_id (store world0) [1] = []
  ∧ (publish_succeeded_execution (lib := Reference.lib) 1 [ctx1] (Some [("model", [1%nat])])
       (Some (report [("extra", [r5])])) world0).1
    = inl (RuntimeError
             (more_keys (report [("extra", [r5])]) [("model", [1%nat])]))
  ∧ (publish_succeeded_execution (lib := Reference.lib) 1 [ctx1] (Some [("model", [1%nat])])
       (Some (report [("extra", [r5])])) world0).1
    ≠ inl (unpack_error (Store.get_executions_by_id (store world0) [1])).
Proof. split; [|split]; [reflexivity|compute_done|discriminate]. Qed.

(** C4, as the code has it: when a channel of both the skeleton and the
    report has a reported length other than the skeleton's, the call never
    succeeds, it raises a [RuntimeError]; the error is the "partially
    update" one when the keys of the report are a subset of the skeleton's
    and every channel before this one in the skeleton passes its own
    checks. *)
Theorem C4_partial_channel_update {lib : ExecutionLib}
    execution_id contexts oa eo w pre key l post entry :
  or_empty oa = pre ++ (key, l) :: post →
  ExecutorOutput.output_artifacts eo !! key = Some entry →
  length l ≠ length (ArtifactList.artifacts entry) →
  let r :=
    (publish_succeeded_execution execution_id contexts oa (Some eo) w).1 in
  (∃ m, r = inl (RuntimeError m))
  ∧ (keys_subset eo (or_empty oa) →
     Forall (channel_agrees (heap w) eo) pre →
     r = inl (RuntimeError partial_update)).
Proof.
  intros Hoa E Hlen r. subst r. split.
  - destruct (merge_failure_raises execution_id contexts oa (Some eo) w)
      as (m & Hm & _); [|by exists m].
    apply (merge_fails_of_channel _ _ _ (key, l)).
    + rewrite Hoa. apply elem_of_app. right. apply list_elem_of_here.
    + by eapply channel_disagrees_length.
  - intros Hsub Hpre. rewrite publish_succeeded_execution_eq. simpl.
    rewrite bool_decide_true by done. simpl.
    rewrite Hoa. by erewrite merge_items_partial.
Qed.

Lemma C4_witness :
  (publish_succeeded_execution (lib := Reference.lib) 1 [ctx1]
     (Some [("a", [1%nat]); ("b", [2%nat; 3%nat])])
     (Some (report [("a", [r5]); ("b", [r5])])) world1).1
  = inl (RuntimeError partial_update).
Proof.
  destruct (C4_partial_channel_update (lib := Reference.lib) 1 [ctx1]
              (Some [("a", [1%nat]); ("b", [2%nat; 3%nat])])
              (report [("a", [r5]); ("b", [r5])]) world1
              [("a", [1%nat])] "b" [2%nat; 3%nat] [] (ArtifactList.mk [r5]))
    as [_ H]; [reflexivity|compute_done|compute_done|].
  apply H; [unfold keys_subset; compute_done|].
  constructor; [|constructor].
  intros entry E. vm_compute in E. injection E as <-.
  split; [reflexivity|]. constructor; [reflexivity|constructor].
Defined.

(** C4 as stated fails: the channel "b" is reported with one artifact
    for two, yet the error is the one of the type check of the channel
    "a", which comes first in the skeleton. *)
Lemma C4_counterexample :
  ExecutorOutput.output_artifacts (report [("a", [r6]); ("b", [r5])]) !! "b"
  = Some (ArtifactList.mk [r5])
  ∧ length [2%nat; 3%nat] ≠ length [r5]
  ∧ (publish_succeeded_execution (lib := Reference.lib) 1 [ctx1]
       (Some [("a", [1%nat]); ("b", [2%nat; 3%nat])])
       (Some (report [("a", [r6]); ("b", [r5])])) world1).1
    = inl (RuntimeError type_changed).
Proof. split; [|split]; [compute_done|discriminate|compute_done]. Qed.

(** C5, as the code has it: when the skeleton artifact and the reported
    artifact at one index of a channel differ in type id, the call never
    succeeds, it raises a [RuntimeError]; the error is the "should not
    change artifact type" one when the keys of the report are a subset of
    the skeleton's, every channel before this one passes its own checks,
    and the channel is reported with as many artifacts as the skeleton
    has. *)
Theorem C5_type_mismatch {lib : ExecutionLib}
    execution_id contexts oa eo w pre key l post entry i a u :
  or_empty oa = pre ++ (key, l) :: post →
  ExecutorOutput.output_artifacts eo !! key = Some entry →
  l !! i = Some a →
  ArtifactList.artifacts entry !! i = Some u →
  Artifact.get_type_id (heap w a) ≠ Artifact.get_type_id u →
  let r :=
    (publish_succeeded_execution execution_id contexts oa (Some eo) w).1 in
  (∃ m, r = inl (RuntimeError m))
  ∧ (keys_subset eo (or_empty oa) →
     Forall (channel_agrees (heap w) eo) pre →
     length l = length (ArtifactList.artifacts entry) →
     r = inl (RuntimeError type_changed)).
Proof.
  intros Hoa E Ha Hu Hne r. subst r.
  destruct (channel_disagrees_type (heap w) eo key l entry i a u)
    as [Hty Hbad]; try done.
  split.
  - destruct (merge_failure_raises execution_id contexts oa (Some eo) w)
      as (m & Hm & _); [|by exists m].
    apply (merge_fails_of_channel _ _ _ (key, l)); [|done].
    rewrite Hoa. apply elem_of_app. right. apply list_elem_of_here.
  - intros Hsub Hpre Hlen. rewrite publish_succeeded_execution_eq. simpl.
    rewrite bool_decide_true by done. simpl.
    apply first_mismatch in Hty as (ppre & b & v & ppost & Hzip & Hppre & Hbv).
    rewrite Hoa. by erewrite merge_items_type_changed.
Qed.

Lemma C5_witness :
  (publish_succeeded_execution (lib := Reference.lib) 1 [ctx1]
     (Some [("a", [1%nat]); ("b", [2%nat; 3%nat])])
     (Some (report [("a", [r5]); ("b", [r5; r6])])) world1).1
  = inl (RuntimeError type_changed).
Proof.
  destruct (C5_type_mismatch (lib := Reference.lib) 1 [ctx1]
              (Some [("a", [1%nat]); ("b", [2%nat; 3%nat])])
              (report [("a", [r5]); ("b", [r5; r6])]) world1
              [("a", [1%nat])] "b" [2%nat; 3%nat] []
              (ArtifactList.mk [r5; r6]) 1%nat 3%nat r6)
    as [_ H];
    [reflexivity|compute_done|reflexivity|reflexivity|compute_done|].
  apply H; [unfold keys_subset; compute_done| |reflexivity].
  constructor; [|constructor].
  intros entry E. vm_compute in E. injection E as <-.
  split; [reflexivity|]. constructor; [reflexivity|constructor].
Defined.

(** C5 as stated fails: the first pair of the channel differs in type
    id, yet the error is the one of the length check, which comes before
    any pair is looked at. *)
Lemma C5_counterexample :
  Artifact.get_type_id (heap world1 1%nat) ≠ Artifact.get_type_id r6
  ∧ (publish_succeeded_execution (lib := Reference.lib) 1 [ctx1]
       (Some [("a", [1%nat; 2%nat])])
       (Some (report [("a", [r6])])) world1).1
    = inl (RuntimeError partial_update).
Proof. split; [discriminate|compute_done]. Qed.

Lemma reconciled_live oa eo w a :
  a ∈ concat (values (or_empty oa)) →
  Artifact.state (heap (reconciled oa eo w) a) = Some LIVE.
Proof. intros Ha. simpl. by rewrite marked_lookup, decide_True. Qed.

(** C6: when the merge of [publish_succeeded_execution] passes, the
    call goes on to the lookup and the put in a world in which every
    artifact of every channel of the skeleton has the state [LIVE]; and when
    no executor output was given, in that world each skeleton artifact is
    what it was before the call with its state set to [LIVE], and no other
    object and nothing of the store has changed. *)
Theorem C6_outputs_marked_live {lib : ExecutionLib}
    execution_id contexts oa eo w :
  let w_put := reconciled oa eo w in
  merge_passes (heap w) (or_empty oa) eo →
  publish_succeeded_execution execution_id contexts oa eo w
  = match Store.get_executions_by_id (store w) [execution_id] with
    | [x] =>
        put_and_drop (Execution.set_last_known_state COMPLETE x) contexts
          None (Some (or_empty oa)) OUTPUT w_put
    | xs => (inl (unpack_error xs), w_put)
    end
  ∧ (∀ key l a,
       (key, l) ∈ or_empty oa → a ∈ l →
       Artifact.state (heap w_put a) = Some LIVE)
  ∧ (eo = None →
     ∀ a,
       heap w_put a
       = if decide (a ∈ concat (values (or_empty oa)))
         then Artifact.set_state LIVE (heap w a)
         else heap w a)
  ∧ store w_put = store w.
Proof.
  intros w_put Hpass. subst w_put.
  split; [by apply merge_pass_continues|]. split; [|split; [|done]].
  - intros key l a Hin Ha. apply reconciled_live.
    apply elem_of_concat. exists l. split; [done|by eapply elem_of_values].
  - intros -> a. simpl. by rewrite marked_lookup.
Qed.

Lemma C6_witness :
  publish_succeeded_execution (lib := Reference.lib) 1 [ctx1]
    (Some [("model", [1%nat; 2%nat])]) None world1
  = put_and_drop (lib := Reference.lib)
      (Execution.mk (Some 1) (Some 3) (Some COMPLETE) ∅) [ctx1] None
      (Some [("model", [1%nat; 2%nat])]) OUTPUT
      (reconciled (Some [("model", [1%nat; 2%nat])]) None world1)
  ∧ Artifact.state
      (heap (reconciled (Some [("model", [1%nat; 2%nat])]) None world1)
         2%nat)
    = Some LIVE
  ∧ heap (reconciled (Some [("model", [1%nat; 2%nat])]) None world1) 1%nat
    = Artifact.mk (Some 7) (Some 5) None ∅ (Some LIVE).
Proof.
  destruct (C6_outputs_marked_live (lib := Reference.lib) 1 [ctx1]
              (Some [("model", [1%nat; 2%nat])]) None world1)
    as (Hrun & Hlive & Hsame & _); [exact I|].
  split; [exact Hrun|]. split.
  - apply (Hlive "model" [1%nat; 2%nat] 2%nat); compute_done.
  - rewrite (Hsame eq_refl 1%nat). reflexivity.
Defined.

(** C1, as the code has it: when the merge of
    [publish_succeeded_execution] passes, the call goes on to the lookup and
    the put in a world in which a skeleton artifact that the report covers
    holds the record reported for it as a whole (payload, properties and
    type), with the state set to [LIVE]: the record at its own index when
    the artifact objects of the skeleton are pairwise distinct.  The id is
    copied with the rest, so the record handed to the put has the id of the
    reported record (none when that one has none), whatever id the artifact
    had before. *)
Theorem C1_record_overwritten {lib : ExecutionLib}
    execution_id contexts oa eo w a u :
  let w_put := reconciled oa (Some eo) w in
  merge_passes (heap w) (or_empty oa) (Some eo) →
  reported_at eo (or_empty oa) a u →
  publish_succeeded_execution execution_id contexts oa (Some eo) w
  = match Store.get_executions_by_id (store w) [execution_id] with
    | [x] =>
        put_and_drop (Execution.set_last_known_state COMPLETE x) contexts
          None (Some (or_empty oa)) OUTPUT w_put
    | xs => (inl (unpack_error xs), w_put)
    end
  ∧ ∃ v,
      reported_at eo (or_empty oa) a v
      ∧ heap w_put a = Artifact.set_state LIVE v
      ∧ Artifact.id (heap w_put a) = Artifact.id v
      ∧ (NoDup (concat (values (or_empty oa))) → v = u).
Proof.
  intros w_put Hpass Hrep. subst w_put.
  split; [by apply merge_pass_continues|]. simpl.
  destruct (merged_and_marked eo (or_empty oa) (heap w) a u Hrep)
    as (v & Hv & -> & Hnd).
  exists v. by destruct v.
Qed.

Lemma C1_witness :
  heap (reconciled (Some [("model", [1%nat])])
          (Some (report [("model", [r5])])) world1) 1%nat
  = Artifact.mk None (Some 5) (Some "gs://x") ∅ (Some LIVE).
Proof.
  destruct (C1_record_overwritten (lib := Reference.lib) 1 [ctx1]
              (Some [("model", [1%nat])])
              (report [("model", [r5])]) world1 1%nat r5)
    as (_ & v & _ & H & _ & Hv).
  - split; [unfold keys_subset; compute_done|].
    constructor; [|constructor].
    intros entry E. vm_compute in E. injection E as <-.
    split; [reflexivity|]. constructor; [reflexivity|constructor].
  - exists "model", [1%nat], (ArtifactList.mk [r5]), 0%nat.
    split; [compute_done|]. split; [compute_done|]. split; reflexivity.
  - rewrite H, Hv; [reflexivity|compute_done].
Defined.

(** C1 as stated fails: the skeleton artifact has the store id 7, the
    pair passes the three checks, and the copy leaves the artifact without
    an id: the merge block returns with the id unset, before the artifacts
    are marked and handed to the put. *)
Lemma C1_counterexample :
  Artifact.id (heap world1 1%nat) = Some 7
  ∧ (merge_executor_output [("model", [1%nat])]
       (Some (report [("model", [r5])])) world1).1
    = inr ()
  ∧ Artifact.id
      (heap (merge_executor_output [("model", [1%nat])]
               (Some (report [("model", [r5])])) world1).2 1%nat)
    = None
  ∧ Artifact.id
      (heap (reconciled (Some [("model", [1%nat])])
               (Some (report [("model", [r5])])) world1) 1%nat)
    = None.
Proof. split; [|split; [|split]]; reflexivity. Qed.

(** When a put that meets its contract returns, the store resolves the
    id of the execution it was given to that execution. *)
Lemma put_and_drop_returns {lib : ExecutionLib} e contexts ins outs ty w w' i :
  put_contract lib →
  Execution.id e = Some i →
  put_and_drop e contexts ins outs ty w = (inr (), w') →
  Store.get_executions_by_id (store w') [i] = [e].
Proof.
  intros Hput Hid Hrun. rewrite put_and_drop_eq in Hrun.
  destruct (put_execution e contexts ins outs ty w) as [[err|e'] w1] eqn:E;
    [done|].
  injection Hrun as <-.
  destruct (Hput _ _ _ _ _ _ _ _ E) as (j & -> & Hj & Hget).
  pose proof (Hj i Hid) as ->.
  by rewrite (set_id_same e i) in Hget.
Qed.

(** C8, as the code has it: on an execution that is stored exactly once,
    [publish_internal_execution] calls the put with the execution set to
    [COMPLETE] and the event type [INTERNAL_OUTPUT], in the world it was
    called in: it takes no executor output, merges nothing and marks
    nothing, so the output artifacts are handed to the put in the state they
    were supplied with.  [publish_succeeded_execution] without an executor
    output differs in the event type ([OUTPUT]) and in that it hands the put
    a world in which every output artifact is [LIVE].  When the put meets
    its contract and returns, the execution is stored as [COMPLETE]. *)
Theorem C8_internal_execution {lib : ExecutionLib}
    contexts execution_id oa w x :
  Store.get_executions_by_id (store w) [execution_id] = [x] →
  publish_internal_execution contexts execution_id oa w
  = put_and_drop (Execution.set_last_known_state COMPLETE x) contexts None
      oa INTERNAL_OUTPUT w
  ∧ publish_succeeded_execution execution_id contexts oa None w
    = put_and_drop (Execution.set_last_known_state COMPLETE x) contexts None
        (Some (or_empty oa)) OUTPUT (reconciled oa None w)
  ∧ (∀ a, a ∈ concat (values (or_empty oa)) →
       Artifact.state (heap (reconciled oa None w) a) = Some LIVE)
  ∧ (put_contract lib →
     ∀ w', publish_internal_execution contexts execution_id oa w
           = (inr (), w') →
           Store.get_executions_by_id (store w') [execution_id]
           = [Execution.set_last_known_state COMPLETE x]).
Proof.
  intros Hget.
  pose proof (get_executions_by_id_one _ _ _ Hget) as Hid.
  rewrite publish_internal_execution_eq, Hget.
  split; [done|]. split; [|split].
  - by rewrite merge_pass_continues, Hget.
  - intros a Ha. by apply reconciled_live.
  - intros Hput w' Hrun. by eapply put_and_drop_returns.
Qed.

Lemma C8_witness :
  publish_internal_execution (lib := Reference.lib) [ctx1] 1
    (Some [("meta", [2%nat])]) world1
  = put_and_drop (lib := Reference.lib)
      (Execution.mk (Some 1) (Some 3) (Some COMPLETE) ∅) [ctx1] None
      (Some [("meta", [2%nat])]) INTERNAL_OUTPUT world1.
Proof.
  destruct (C8_internal_execution (lib := Reference.lib) [ctx1] 1
              (Some [("meta", [2%nat])]) world1
              (Execution.mk (Some 1) (Some 3) (Some RUNNING) ∅))
    as (Hr & _); [reflexivity|].
  exact Hr.
Defined.

(** C8 as stated fails: the output artifact is new to the store and in
    the state [PENDING]; [publish_internal_execution] hands it to the put as
    it is, and on the reference store the call returns with the artifact
    still [PENDING], not [LIVE]. *)
Lemma C8_counterexample :
  Artifact.state (heap world1 2%nat) = Some PENDING
  ∧ publish_internal_execution (lib := Reference.lib) [ctx1] 1
      (Some [("meta", [2%nat])]) world1
    = put_and_drop (lib := Reference.lib)
        (Execution.mk (Some 1) (Some 3) (Some COMPLETE) ∅) [ctx1] None
        (Some [("meta", [2%nat])]) INTERNAL_OUTPUT world1
  ∧ (publish_internal_execution (lib := Reference.lib) [ctx1] 1
       (Some [("meta", [2%nat])]) world1).1
    = inr ()
  ∧ Artifact.state
      (heap (publish_internal_execution (lib := Reference.lib) [ctx1] 1
               (Some [("meta", [2%nat])]) world1).2 2%nat)
    = Some PENDING.
Proof. split; [|split; [|split]]; reflexivity. Qed.

(** C9: each operation gives the execution the state of the state
    machine.  [register_execution] has the execution prepared with the
    state [RUNNING] and returns what the put returns: with a library that
    meets its contract, an execution in the state [RUNNING], with its id
    populated and stored under it.  On an execution that is stored exactly
    once, [publish_cached_execution], [publish_failed_execution],
    [publish_internal_execution] and (when its merge passes)
    [publish_succeeded_execution] hand the put the execution set to
    [CACHED], [FAILED], [COMPLETE] and [COMPLETE], [publish_failed_execution]
    with no artifact at all; and when the put meets its contract and the
    call returns, the execution is stored in that state. *)
Theorem C9_last_known_state {lib : ExecutionLib}
    execution_type contexts execution_id ins props oa eo w :
  let registered := register_execution execution_type contexts ins props w in
  let cached := publish_cached_execution contexts execution_id oa w in
  let failed := publish_failed_execution contexts execution_id w in
  let internal := publish_internal_execution contexts execution_id oa w in
  let succeeded :=
    publish_succeeded_execution execution_id contexts oa eo w in
  let stored (st : ExecutionState) (w' : World) :=
    ∃ e, Store.get_executions_by_id (store w') [execution_id] = [e]
         ∧ Execution.last_known_state e = Some st in
  prepare_contract lib → put_contract lib →
  registered
  = (e ← prepare_execution execution_type RUNNING props;
     put_execution e contexts ins None OUTPUT) w
  ∧ (∀ e, registered.1 = inr e →
     Execution.last_known_state e = Some RUNNING
     ∧ ∃ i, Execution.id e = Some i
            ∧ Store.get_executions_by_id (store registered.2) [i] = [e])
  ∧ (∀ x, Store.get_executions_by_id (store w) [execution_id] = [x] →
       cached
       = put_and_drop (Execution.set_last_known_state CACHED x) contexts
           None oa OUTPUT w
       ∧ failed
         = put_and_drop (Execution.set_last_known_state FAILED x) contexts
             None None OUTPUT w
       ∧ internal
         = put_and_drop (Execution.set_last_known_state COMPLETE x) contexts
             None oa INTERNAL_OUTPUT w
       ∧ (merge_passes (heap w) (or_empty oa) eo →
          succeeded
          = put_and_drop (Execution.set_last_known_state COMPLETE x)
              contexts None (Some (or_empty oa)) OUTPUT
              (reconciled oa eo w)))
  ∧ (cached.1 = inr () → stored CACHED cached.2)
  ∧ (failed.1 = inr () → stored FAILED failed.2)
  ∧ (internal.1 = inr () → stored COMPLETE internal.2)
  ∧ (succeeded.1 = inr () → stored COMPLETE succeeded.2).
Proof.
  intros registered cached failed internal succeeded stored Hprep Hput.
  subst registered cached failed internal succeeded stored.
  assert (Hstored : ∀ st x contexts' ins' outs' ty w0 (r : (exn + ()) * World),
    Execution.id x = Some execution_id →
    r = put_and_drop (Execution.set_last_known_state st x) contexts' ins'
          outs' ty w0 →
    r.1 = inr () →
    ∃ e, Store.get_executions_by_id (store r.2) [execution_id] = [e]
         ∧ Execution.last_known_state e = Some st).
  { intros st x contexts' ins' outs' ty w0 [r1 r2] Hid Hr Hok.
    simpl in Hok. subst r1.
    exists (Execution.set_last_known_state st x). split; [|done].
    eapply put_and_drop_returns; [done| |by symmetry]. done. }
  split; [done|]. split; [|split; [|split; [|split; [|split]]]].
  - intros e Hreg. unfold register_execution, mbind, M_bind in Hreg |- *.
    destruct (prepare_execution execution_type RUNNING props w)
      as [[err|e0] w0] eqn:E0; [done|].
    destruct (put_execution e0 contexts ins None OUTPUT w0)
      as [[err|e1] w1] eqn:E1; [done|].
    simpl in Hreg |- *. injection Hreg as ->.
    apply Hprep in E0.
    destruct (Hput _ _ _ _ _ _ _ _ E1) as (i & -> & _ & Hget).
    split; [done|]. by exists i.
  - intros x Hget.
    rewrite publish_cached_execution_eq, publish_failed_execution_eq,
      publish_internal_execution_eq, Hget.
    split; [done|]. split; [done|]. split; [done|].
    intros Hpass. by rewrite merge_pass_continues, Hget.
  - rewrite publish_cached_execution_eq.
    destruct (Store.get_executions_by_id (store w) [execution_id])
      as [|x [|y xs]] eqn:Hget; try done.
    intros Hok. eapply Hstored; [|done|done].
    by eapply get_executions_by_id_one.
  - rewrite publish_failed_execution_eq.
    destruct (Store.get_executions_by_id (store w) [execution_id])
      as [|x [|y xs]] eqn:Hget; try done.
    intros Hok. eapply Hstored; [|done|done].
    by eapply get_executions_by_id_one.
  - rewrite publish_internal_execution_eq.
    destruct (Store.get_executions_by_id (store w) [execution_id])
      as [|x [|y xs]] eqn:Hget; try done.
    intros Hok. eapply Hstored; [|done|done].
    by eapply get_executions_by_id_one.
  - intros Hok.
    pose proof (succeeded_implies_merge_passes _ _ _ _ _ Hok) as Hpass.
    rewrite merge_pass_continues in Hok |- * by done.
    destruct (Store.get_executions_by_id (store w) [execution_id])
      as [|x [|y xs]] eqn:Hget; try done.
    eapply Hstored; [|done|done].
    by eapply get_executions_by_id_one.
Qed.

Lemma C9_witness :
  (∃ e i,
     (register_execution (lib := Reference.lib)
        (ExecutionType.mk None "Trainer") [ctx1] None None world1).1 = inr e
     ∧ Execution.last_known_state e = Some RUNNING
     ∧ Execution.id e = Some i)
  ∧ ∃ e,
      Store.get_executions_by_id
        (store (publish_failed_execution (lib := Reference.lib) [ctx1] 1
                  world1).2) [1]
      = [e]
      ∧ Execution.last_known_state e = Some FAILED.
Proof.
  destruct (C9_last_known_state (lib := Reference.lib)
              (ExecutionType.mk None "Trainer") [ctx1] 1 None None None None
              world1 reference_prepare_contract reference_put_contract)
    as (_ & Hreg & _ & _ & Hfailed & _).
  split.
  - destruct (Hreg (Execution.mk (Some 2) None (Some RUNNING) ∅))
      as (Hrun & i & Hi & _); [reflexivity|].
    by exists (Execution.mk (Some 2) None (Some RUNNING) ∅), i.
  - apply Hfailed. reflexivity.
Defined.

(** C10: [publish_succeeded_execution] rolls nothing back.  When the
    validation passes and the lookup of the execution fails, every skeleton
    artifact is left [LIVE] and every reported one holds a record reported
    for it.  When a channel raises the "partially update" error, the
    artifacts of the channels before it hold the records reported for them;
    when the pair at index [i] of a channel raises the type error, so do
    those and the artifacts of that channel before index [i].  The record
    held is the one at the artifact's own index when the artifact objects
    of the skeleton are pairwise distinct. *)
Theorem C10_no_rollback {lib : ExecutionLib} execution_id contexts oa eo w :
  let run := publish_succeeded_execution execution_id contexts oa eo w in
  let distinct := NoDup (concat (values (or_empty oa))) in
  (merge_passes (heap w) (or_empty oa) eo →
   length (Store.get_executions_by_id (store w) [execution_id]) ≠ 1%nat →
   run.1
   = inl (unpack_error (Store.get_executions_by_id (store w) [execution_id]))
   ∧ (∀ a, a ∈ concat (values (or_empty oa)) →
        Artifact.state (heap run.2 a) = Some LIVE)
   ∧ (∀ r a u, eo = Some r → reported_at r (or_empty oa) a u →
        ∃ v, reported_at r (or_empty oa) a v
             ∧ heap run.2 a = Artifact.set_state LIVE v
             ∧ (distinct → v = u)))
  ∧ (∀ r pre key l post entry,
       eo = Some r → keys_subset r (or_empty oa) →
       or_empty oa = pre ++ (key, l) :: post →
       Forall (channel_agrees (heap w) r) pre →
       ExecutorOutput.output_artifacts r !! key = Some entry →
       length l ≠ length (ArtifactList.artifacts entry) →
       run.1 = inl (RuntimeError partial_update)
       ∧ ∀ a u, reported_at r pre a u →
           ∃ v, reported_at r pre a v ∧ heap run.2 a = v
                ∧ (distinct → v = u))
  ∧ (∀ r pre key l post entry i a u,
       eo = Some r → keys_subset r (or_empty oa) →
       or_empty oa = pre ++ (key, l) :: post →
       Forall (channel_agrees (heap w) r) pre →
       ExecutorOutput.output_artifacts r !! key = Some entry →
       length l = length (ArtifactList.artifacts entry) →
       types_agree (heap w) (take i (zip l (ArtifactList.artifacts entry))) →
       l !! i = Some a →
       ArtifactList.artifacts entry !! i = Some u →
       Artifact.get_type_id (heap w a) ≠ Artifact.get_type_id u →
       run.1 = inl (RuntimeError type_changed)
       ∧ ∀ b v,
           (b, v) ∈ processed r pre l (ArtifactList.artifacts entry) i →
           ∃ v', (b, v') ∈ processed r pre l (ArtifactList.artifacts entry) i
                 ∧ heap run.2 b = v'
                 ∧ (distinct → v' = v)).
Proof.
  intros run distinct. subst run distinct. split; [|split].
  - intros Hpass Hlen. rewrite merge_pass_lookup_fails by done.
    split; [done|]. split.
    + intros a Ha. by apply reconciled_live.
    + intros r a u -> Hrep. simpl. by apply merged_and_marked.
  - intros r pre key l post entry -> Hsub Hoa Hpre E Hlen.
    rewrite publish_succeeded_execution_eq. simpl.
    rewrite bool_decide_true by done. simpl.
    rewrite Hoa. erewrite merge_items_partial by done.
    simpl. split; [done|]. intros a u Hrep.
    destruct (copied_reported (report_pairs r pre) (heap w) a u)
      as (v & Hv & Heq & Hnd); [by apply reported_at_elem|].
    exists v. split; [by apply elem_reported_at|]. split; [done|].
    intros Hnd'. apply Hnd.
    pose proof (processed_NoDup r pre key l post [] 0 Hnd') as Hnd''.
    unfold processed in Hnd''. by rewrite app_nil_r in Hnd''.
  - intros r pre key l post entry i a u -> Hsub Hoa Hpre E Hlen Hty Ha Hu Hne.
    assert (Hzip : zip l (ArtifactList.artifacts entry) !! i = Some (a, u)).
    { apply lookup_zip_with_Some. by exists a, u. }
    rewrite publish_succeeded_execution_eq. simpl.
    rewrite bool_decide_true by done. simpl.
    rewrite Hoa.
    erewrite (merge_items_type_changed r pre key l post entry
                (take i (zip l (ArtifactList.artifacts entry))) a u
                (drop (S i) (zip l (ArtifactList.artifacts entry))));
      [|done|done|done|by rewrite take_drop_middle|done|done].
    simpl. split; [done|]. intros b v Hbv.
    destruct (copied_reported _ (heap w) b v Hbv) as (v' & Hv' & Heq & Hnd).
    exists v'. split; [done|]. split; [done|].
    intros Hnd'. apply Hnd. by eapply processed_NoDup.
Qed.

Lemma C10_witness :
  (publish_succeeded_execution (lib := Reference.lib) 1 [ctx1]
     (Some [("a", [1%nat]); ("b", [2%nat; 3%nat])])
     (Some (report [("a", [r5]); ("b", [r5; r6])])) world1).1
  = inl (RuntimeError type_changed)
  ∧ heap (publish_succeeded_execution (lib := Reference.lib) 1 [ctx1]
            (Some [("a", [1%nat]); ("b", [2%nat; 3%nat])])
            (Some (report [("a", [r5]); ("b", [r5; r6])])) world1).2 2%nat
    = r5.
Proof.
  destruct (C10_no_rollback (lib := Reference.lib) 1 [ctx1]
              (Some [("a", [1%nat]); ("b", [2%nat; 3%nat])])
              (Some (report [("a", [r5]); ("b", [r5; r6])])) world1)
    as (_ & _ & H).
  destruct (H (report [("a", [r5]); ("b", [r5; r6])]) [("a", [1%nat])] "b"
              [2%nat; 3%nat] [] (ArtifactList.mk [r5; r6]) 1%nat 3%nat r6)
    as (Hr & Hheld).
  - reflexivity.
  - unfold keys_subset. compute_done.
  - reflexivity.
  - constructor; [|constructor].
    intros entry E. vm_compute in E. injection E as <-.
    split; [reflexivity|]. constructor; [reflexivity|constructor].
  - compute_done.
  - reflexivity.
  - constructor; [reflexivity|constructor].
  - reflexivity.
  - reflexivity.
  - compute_done.
  - split; [exact Hr|].
    destruct (Hheld 2%nat r5) as (v & _ & Hv & Hu).
    { apply elem_of_app. right. apply list_elem_of_here. }
    rewrite Hv. apply Hu. compute_done.
Defined.

(** ** Further properties of the publisher *)

(** Whatever the merge of an executor output does to the heap, it is the
    copy of the first pairs of its walk, all of which agreed in type. *)
Lemma merge_items_heap eo items w :
  ∃ r pairs,
    merge_items eo items w = (r, mkWorld (copied pairs (heap w)) (store w))
    ∧ pairs `prefix_of` report_pairs eo items
    ∧ types_agree (heap w) pairs
    ∧ (r = inr ()
       ∨ r = inl (RuntimeError partial_update)
       ∨ r = inl (RuntimeError type_changed)).
Proof.
  destruct (channels_first_failure (heap w) eo items)
    as [Hag|(pre & key & l & post & entry & -> & Hpre & E & Hbad)].
  - exists (inr ()), (report_pairs eo items).
    split; [by apply merge_items_agree|]. split; [done|].
    split; [by apply report_pairs_agree|by left].
  - assert (Hchan : channel_pairs eo (key, l)
                    = zip l (ArtifactList.artifacts entry)).
    { unfold channel_pairs. simpl. by rewrite E. }
    assert (Hall : report_pairs eo (pre ++ (key, l) :: post)
                   = report_pairs eo pre
                     ++ zip l (ArtifactList.artifacts entry)
                     ++ report_pairs eo post).
    { unfold report_pairs. rewrite bind_app, bind_cons. by rewrite Hchan. }
    destruct Hbad as [Hlen|[Hlen Hty]].
    + exists (inl (RuntimeError partial_update)), (report_pairs eo pre).
      split; [by eapply merge_items_partial|].
      split; [rewrite Hall; by eexists|].
      split; [by apply report_pairs_agree|by right; left].
    + apply first_mismatch in Hty
        as (ppre & a & u & ppost & Hzip & Hppre & Hne).
      exists (inl (RuntimeError type_changed)), (report_pairs eo pre ++ ppre).
      split; [by eapply merge_items_type_changed|].
      split.
      { rewrite Hall, Hzip. exists ((a, u) :: ppost ++ report_pairs eo post).
        by rewrite <- !app_assoc. }
      split; [|by right; right].
      apply Forall_app. split; [by apply report_pairs_agree|done].
Qed.

(** The same for the whole validation block, whose first check raises
    before any copy. *)
Lemma merge_executor_output_heap oa eo w :
  ∃ r pairs,
    merge_executor_output oa eo w
    = (r, mkWorld (copied pairs (heap w)) (store w))
    ∧ pairs `prefix_of` merged_pairs oa eo
    ∧ types_agree (heap w) pairs
    ∧ (r = inr () ∨ ∃ m, r = inl (RuntimeError m)).
Proof.
  destruct eo as [eo|]; simpl.
  - case_bool_decide; simpl.
    + destruct (merge_items_heap eo oa w) as (r & pairs & Hrun & Hpre & Hty & Hr).
      exists r, pairs. split; [done|]. split; [done|]. split; [done|].
      destruct Hr as [->|[->| ->]]; eauto.
    + exists (inl (RuntimeError (more_keys eo oa))), [].
      split; [by destruct w|]. split; [apply prefix_nil|].
      split; [constructor|eauto].
  - exists (inr ()), []. split; [by destruct w|].
    split; [done|]. split; [constructor|by left].
Qed.

Lemma marked_type_id objects h a :
  Artifact.get_type_id (marked objects h a) = Artifact.get_type_id (h a).
Proof. rewrite marked_lookup. by destruct (decide (a ∈ objects)). Qed.

Lemma merged_pairs_sublist oa eo :
  (merged_pairs oa eo).*1 `sublist_of` concat (values oa).
Proof.
  destruct eo as [eo|]; simpl; [apply report_pairs_sublist|apply sublist_nil_l].
Qed.

Lemma prefix_objects_in_skeleton pairs oa eo a :
  pairs `prefix_of` merged_pairs oa eo →
  a ∈ pairs.*1 → a ∈ concat (values oa).
Proof.
  intros [k Hk] Ha. eapply elem_of_sublist; [|apply (merged_pairs_sublist oa eo)].
  rewrite Hk, fmap_app. apply elem_of_app. by left.
Qed.

Lemma merge_passes_same_types h h' oa eo :
  same_types h h' → merge_passes h oa eo → merge_passes h' oa eo.
Proof.
  intros Hst. destruct eo as [eo|]; [|done]. intros [Hsub Hall].
  split; [done|]. by eapply channel_agrees_same_types.
Qed.

Lemma merged_pairs_agree h oa eo :
  merge_passes h oa eo → types_agree h (merged_pairs oa eo).
Proof.
  destruct eo as [eo|]; [|constructor].
  intros [_ Hall]. by apply report_pairs_agree.
Qed.

Lemma reconciled_same_types oa eo w :
  merge_passes (heap w) (or_empty oa) eo →
  same_types (heap w) (heap (reconciled oa eo w)).
Proof.
  intros Hpass a. simpl. rewrite marked_type_id.
  by apply copied_same_types, merged_pairs_agree.
Qed.

Lemma reconciled_outside oa eo w a :
  a ∉ concat (values (or_empty oa)) →
  heap (reconciled oa eo w) a = heap w a.
Proof.
  intros Hout. simpl. rewrite marked_lookup, decide_False by done.
  apply copied_notin. intros Ha. apply Hout.
  eapply elem_of_sublist; [exact Ha|apply merged_pairs_sublist].
Qed.

(** A call whose merge fails leaves the copies made before the raise. *)
Lemma merge_failure_heap {lib : ExecutionLib}
    execution_id contexts oa eo w :
  ¬ merge_passes (heap w) (or_empty oa) eo →
  ∃ m pairs,
    publish_succeeded_execution execution_id contexts oa eo w
    = (inl (RuntimeError m), mkWorld (copied pairs (heap w)) (store w))
    ∧ pairs `prefix_of` merged_pairs (or_empty oa) eo
    ∧ types_agree (heap w) pairs.
Proof.
  intros Hfail. rewrite publish_succeeded_execution_eq.
  destruct (merge_executor_output_outcome (or_empty oa) eo w)
    as [[Hpass _]|[_ (m & h' & Hrun)]]; [done|].
  destruct (merge_executor_output_heap (or_empty oa) eo w)
    as (r & pairs & Hrun' & Hpre & Hty & _).
  rewrite Hrun' in Hrun |- *. injection Hrun as -> _.
  by exists m, pairs.
Qed.

(** X1: up to the put, [publish_succeeded_execution] changes no type
    id: every artifact object has the type id it had before the call in the
    world that is handed to the put, and after a call that ends in a merge
    error or in the error of the lookup. *)
Theorem X1_type_ids_invariant {lib : ExecutionLib}
    execution_id contexts oa eo w a :
  (merge_passes (heap w) (or_empty oa) eo →
   continues_in execution_id contexts oa eo w (reconciled oa eo w)
   ∧ Artifact.get_type_id (heap (reconciled oa eo w) a)
     = Artifact.get_type_id (heap w a))
  ∧ (¬ merge_passes (heap w) (or_empty oa) eo
     ∨ length (Store.get_executions_by_id (store w) [execution_id]) ≠ 1%nat →
     Artifact.get_type_id
       (heap (publish_succeeded_execution execution_id contexts oa eo w).2 a)
     = Artifact.get_type_id (heap w a)).
Proof.
  split.
  - intros Hpass. split; [by apply merge_pass_continues|].
    by apply reconciled_same_types.
  - intros Hend.
    destruct (merge_executor_output_outcome (or_empty oa) eo w)
      as [[Hpass _]|[Hfail _]].
    + destruct Hend as [Hfail|Hlen]; [done|].
      rewrite merge_pass_lookup_fails by done.
      by apply reconciled_same_types.
    + destruct (merge_failure_heap execution_id contexts oa eo w Hfail)
        as (m & pairs & -> & _ & Hty).
      by apply copied_same_types.
Qed.

Lemma X1_witness :
  Artifact.get_type_id
    (heap (reconciled (Some [("model", [2%nat])])
             (Some (report [("model", [r5])])) world1) 2%nat)
  = 5.
Proof.
  destruct (X1_type_ids_invariant (lib := Reference.lib) 1 [ctx1]
              (Some [("model", [2%nat])]) (Some (report [("model", [r5])]))
              world1 2%nat) as [H _].
  destruct H as [_ H].
  - split; [unfold keys_subset; compute_done|].
    constructor; [|constructor].
    intros entry E. vm_compute in E. injection E as <-.
    split; [reflexivity|]. constructor; [reflexivity|constructor].
  - rewrite H. reflexivity.
Defined.

(** X2: [publish_succeeded_execution] itself never changes an artifact
    object that is not in the output skeleton: such an object is the same in
    the world handed to the put, and the same after a call that ends before
    the put (a failed merge, or an execution id that does not resolve to
    exactly one execution).  With a put that writes to no artifact object
    other than those it is given, it is the same after every call, whatever
    the outcome. *)
Theorem X2_objects_outside_skeleton {lib : ExecutionLib}
    execution_id contexts oa eo w a :
  a ∉ concat (values (or_empty oa)) →
  let run := publish_succeeded_execution execution_id contexts oa eo w in
  heap (reconciled oa eo w) a = heap w a
  ∧ (¬ merge_passes (heap w) (or_empty oa) eo
     ∨ length (Store.get_executions_by_id (store w) [execution_id]) ≠ 1%nat →
     heap run.2 a = heap w a)
  ∧ (put_writes_given lib → heap run.2 a = heap w a).
Proof.
  intros Hout run. subst run.
  assert (Hfailed : ¬ merge_passes (heap w) (or_empty oa) eo →
            heap (publish_succeeded_execution execution_id contexts oa eo w).2
              a = heap w a).
  { intros Hfail.
    destruct (merge_failure_heap execution_id contexts oa eo w Hfail)
      as (m & pairs & -> & Hpre & _).
    simpl. apply copied_notin. intros Ha. apply Hout.
    by eapply prefix_objects_in_skeleton. }
  split; [by apply reconciled_outside|]. split.
  - intros [Hfail|Hlen]; [by apply Hfailed|].
    destruct (merge_executor_output_outcome (or_empty oa) eo w)
      as [[Hpass _]|[Hfail _]]; [|by apply Hfailed].
    rewrite merge_pass_continues by done.
    destruct (Store.get_executions_by_id (store w) [execution_id])
      as [|x [|y xs]]; simpl; try by apply reconciled_outside.
    by destruct Hlen.
  - intros Hput.
    destruct (merge_executor_output_outcome (or_empty oa) eo w)
      as [[Hpass _]|[Hfail _]]; [|by apply Hfailed].
    rewrite merge_pass_continues by done.
    destruct (Store.get_executions_by_id (store w) [execution_id])
      as [|x [|y xs]]; simpl; try by apply reconciled_outside.
    rewrite put_and_drop_eq.
    pose proof (Hput (Execution.set_last_known_state COMPLETE x) contexts
                  None (Some (or_empty oa)) OUTPUT (reconciled oa eo w) a)
      as Hframe.
    destruct (put_execution _ _ _ _ _ _) as [[err|e'] w'];
      simpl in *; (rewrite Hframe; [by apply reconciled_outside| |done]);
      apply not_elem_of_nil.
Qed.

Lemma X2_witness :
  heap (publish_succeeded_execution (lib := Reference.lib) 1 [ctx1]
          (Some [("model", [1%nat])])
          (Some (report [("model", [r5])])) world1).2 2%nat
  = m2.
Proof.
  destruct (X2_objects_outside_skeleton (lib := Reference.lib) 1 [ctx1]
              (Some [("model", [1%nat])])
              (Some (report [("model", [r5])])) world1 2%nat)
    as (_ & _ & H).
  - compute_done.
  - apply H. exact reference_put_writes_given.
Defined.

(** X3: [publish_succeeded_execution] returns exactly when the three
    constraints of the merge hold, the execution id resolves to exactly one
    stored execution, and the put, called with that execution set to
    [COMPLETE] in the world the merge and the marking have made, returns. *)
Theorem X3_success_criterion {lib : ExecutionLib}
    execution_id contexts oa eo w :
  (publish_succeeded_execution execution_id contexts oa eo w).1 = inr ()
  ↔ merge_passes (heap w) (or_empty oa) eo
    ∧ ∃ x e',
        Store.get_executions_by_id (store w) [execution_id] = [x]
        ∧ (put_execution (Execution.set_last_known_state COMPLETE x)
             contexts None (Some (or_empty oa)) OUTPUT
             (reconciled oa eo w)).1
          = inr e'.
Proof.
  split.
  - intros Hok.
    pose proof (succeeded_implies_merge_passes _ _ _ _ _ Hok) as Hpass.
    split; [done|]. rewrite merge_pass_continues in Hok by done.
    destruct (Store.get_executions_by_id (store w) [execution_id])
      as [|x [|y xs]]; try done.
    rewrite put_and_drop_eq in Hok.
    destruct (put_execution _ _ _ _ _ _) as [[err|e'] w'] eqn:E; [done|].
    exists x, e'. split; [done|]. by rewrite E.
  - intros (Hpass & x & e' & Hget & Hput).
    rewrite merge_pass_continues, Hget, put_and_drop_eq by done.
    by destruct (put_execution _ _ _ _ _ _) as [[err|e''] w'].
Qed.



Lemma merge_items_uncovered eo items w :
  (∀ key, key ∈ keys items →
     ExecutorOutput.output_artifacts eo !! key = None) →
  merge_items eo items w = (inr (), w).
Proof.
  induction items as [|[key l] items IH]; intros Hnone; [done|].
  rewrite merge_items_cons, Hnone by apply list_elem_of_here.
  apply IH. intros k Hk. apply Hnone. by apply list_elem_of_further.
Qed.

(** X5: an executor output without any output artifacts is the same as
    no executor output: [publish_succeeded_execution] gives the same result
    and leaves the same heap and store. *)
Theorem X5_empty_report {lib : ExecutionLib} execution_id contexts oa w :
  publish_succeeded_execution execution_id contexts oa
    (Some (ExecutorOutput.mk ∅)) w
  = publish_succeeded_execution execution_id contexts oa None w.
Proof.
  rewrite !publish_succeeded_execution_eq. simpl.
  rewrite bool_decide_true by (rewrite dom_empty_L; apply empty_subseteq).
  simpl. by rewrite merge_items_uncovered by (intros; apply lookup_empty).
Qed.

(** X6: when the merge of [publish_succeeded_execution] passes, a
    skeleton artifact for which the executor output reports nothing is
    handed to the put with the record it had, only the state set to
    [LIVE]. *)
Theorem X6_unreported_artifacts {lib : ExecutionLib}
    execution_id contexts oa eo w a :
  merge_passes (heap w) (or_empty oa) (Some eo) →
  a ∈ concat (values (or_empty oa)) →
  (∀ u, ¬ reported_at eo (or_empty oa) a u) →
  continues_in execution_id contexts oa (Some eo) w
    (reconciled oa (Some eo) w)
  ∧ heap (reconciled oa (Some eo) w) a = Artifact.set_state LIVE (heap w a).
Proof.
  intros Hpass Ha Hnone. split; [by apply merge_pass_continues|].
  simpl. rewrite marked_lookup, decide_True by done. f_equal.
  apply copied_notin. intros ([b u] & Hb & Hin)%list_elem_of_fmap.
  simpl in Hb. subst b. by destruct (Hnone u); apply elem_reported_at.
Qed.

Lemma X6_witness :
  heap (reconciled (Some [("a", [1%nat]); ("b", [2%nat])])
          (Some (report [("a", [r5])])) world1) 2%nat
  = Artifact.set_state LIVE m2.
Proof.
  apply (X6_unreported_artifacts (lib := Reference.lib) 1 [ctx1]
           (Some [("a", [1%nat]); ("b", [2%nat])])
           (report [("a", [r5])]) world1 2%nat).
  - split; [unfold keys_subset; compute_done|].
    constructor; [|constructor; [|constructor]].
    + intros entry E. vm_compute in E. injection E as <-.
      split; [reflexivity|]. constructor; [reflexivity|constructor].
    + intros entry E. vm_compute in E. discriminate E.
  - compute_done.
  - intros u (key & l & entry & i & Hin & E & Ha & Hu).
    apply elem_of_cons in Hin as [Hin|Hin].
    + injection Hin as -> ->. by destruct i as [|[|i]].
    + apply list_elem_of_singleton in Hin. injection Hin as -> ->.
      vm_compute in E. discriminate E.
Defined.

(** X7: when the merge of [publish_succeeded_execution] fails, the call
    raises its [RuntimeError] having marked nothing: each artifact object
    holds either the record it had before the call or a record that the
    executor output reports for it. *)
Theorem X7_merge_error_heap {lib : ExecutionLib}
    execution_id contexts oa eo w a :
  ¬ merge_passes (heap w) (or_empty oa) eo →
  (∃ m, (publish_succeeded_execution execution_id contexts oa eo w).1
        = inl (RuntimeError m))
  ∧ (heap (publish_succeeded_execution execution_id contexts oa eo w).2 a
     = heap w a
     ∨ ∃ r u,
         eo = Some r ∧ reported_at r (or_empty oa) a u
         ∧ heap (publish_succeeded_execution execution_id contexts oa eo w).2
             a
           = u).
Proof.
  intros Hfail.
  destruct (merge_failure_heap execution_id contexts oa eo w Hfail)
    as (m & pairs & -> & [k Hk] & _).
  split; [by exists m|]. simpl.
  destruct (decide (a ∈ pairs.*1)) as [Ha|Ha].
  - right. destruct (copied_holds pairs (heap w) a Ha) as (u & Hu & Heq).
    destruct eo as [r|]; simpl in Hk.
    + exists r, u. split; [done|]. split; [|done].
      apply elem_reported_at. rewrite Hk. apply elem_of_app. by left.
    + destruct pairs; [by apply elem_of_nil in Hu|done].
  - left. by apply copied_notin.
Qed.

Lemma X7_witness :
  heap (publish_succeeded_execution (lib := Reference.lib) 1 [ctx1]
          (Some [("a", [1%nat; 2%nat])])
          (Some (report [("a", [r5; r6])])) world1).2 2%nat
  = m2
  ∨ ∃ r u,
      Some (report [("a", [r5; r6])]) = Some r
      ∧ reported_at r [("a", [1%nat; 2%nat])] 2%nat u
      ∧ heap (publish_succeeded_execution (lib := Reference.lib) 1 [ctx1]
                (Some [("a", [1%nat; 2%nat])])
                (Some (report [("a", [r5; r6])])) world1).2 2%nat
        = u.
Proof.
  destruct (X7_merge_error_heap (lib := Reference.lib) 1 [ctx1]
              (Some [("a", [1%nat; 2%nat])])
              (Some (report [("a", [r5; r6])])) world1 2%nat) as [_ H].
  - intros [_ Hall]. apply Forall_cons in Hall as [Hchan _].
    destruct (Hchan (ArtifactList.mk [r5; r6])) as [_ Hty]; [compute_done|].
    apply Forall_cons in Hty as [_ Hty].
    apply Forall_cons in Hty as [Hty _]. discriminate Hty.
  - exact H.
Defined.

Lemma copied_indep pairs h h' a :
  a ∈ pairs.*1 → copied pairs h a = copied pairs h' a.
Proof.
  induction pairs as [|[b v] pairs IH] using rev_ind; intros Ha.
  - by apply elem_of_nil in Ha.
  - rewrite !copied_app.
    change (copied [(b, v)] ?g) with (<[b:=v]> g).
    destruct (decide (b = a)) as [->|Hne].
    + by rewrite !fn_lookup_insert.
    + rewrite !fn_lookup_insert_ne by done. apply IH.
      rewrite fmap_app in Ha. apply elem_of_app in Ha as [Ha|Ha]; [done|].
      simpl in Ha. apply list_elem_of_singleton in Ha. congruence.
Qed.

Lemma set_state_twice st r :
  Artifact.set_state st (Artifact.set_state st r) = Artifact.set_state st r.
Proof. done. Qed.

(** Merging and marking a second time changes nothing. *)
Lemma merged_and_marked_twice pairs objects h a :
  (∀ b, b ∈ pairs.*1 → b ∈ objects) →
  marked objects (copied pairs (marked objects (copied pairs h))) a
  = marked objects (copied pairs h) a.
Proof.
  intros Hsub. rewrite (marked_lookup objects (copied pairs (marked _ _))).
  destruct (decide (a ∈ pairs.*1)) as [Ha|Ha].
  - rewrite decide_True by by apply Hsub.
    rewrite (copied_indep pairs _ h) by done.
    by rewrite marked_lookup, decide_True by by apply Hsub.
  - rewrite (copied_notin pairs (marked _ _)) by done.
    rewrite marked_lookup.
    destruct (decide (a ∈ objects)); [by rewrite set_state_twice|done].
Qed.

(** X8: a publish that failed at the lookup can be repeated: called
    again with the same arguments in the world the first call left, the
    operation fails in the same way and leaves every artifact object and the
    store as the first call left them. *)
Theorem X8_publish_twice {lib : ExecutionLib}
    execution_id contexts oa eo w :
  let run1 := publish_succeeded_execution execution_id contexts oa eo w in
  let run2 :=
    publish_succeeded_execution execution_id contexts oa eo run1.2 in
  merge_passes (heap w) (or_empty oa) eo →
  length (Store.get_executions_by_id (store w) [execution_id]) ≠ 1%nat →
  run1.1
  = inl (unpack_error (Store.get_executions_by_id (store w) [execution_id]))
  ∧ run2.1 = run1.1
  ∧ (∀ a, heap run2.2 a = heap run1.2 a)
  ∧ store run2.2 = store run1.2.
Proof.
  intros run1 run2 Hpass Hlen. subst run2 run1.
  rewrite (merge_pass_lookup_fails execution_id contexts oa eo w) by done.
  cbn [fst snd].
  assert (Hpass1 : merge_passes (heap (reconciled oa eo w)) (or_empty oa) eo).
  { eapply merge_passes_same_types; [|exact Hpass].
    by apply reconciled_same_types. }
  rewrite merge_pass_lookup_fails by done.
  split; [done|]. split; [done|]. split; [|done].
  intros a. simpl. apply merged_and_marked_twice. intros b Hb.
  eapply elem_of_sublist; [exact Hb|apply merged_pairs_sublist].
Qed.

Lemma X8_witness :
  heap (publish_succeeded_execution (lib := Reference.lib) 1 [ctx1]
          (Some [("model", [1%nat])]) (Some (report [("model", [r5])]))
          (publish_succeeded_execution (lib := Reference.lib) 1 [ctx1]
             (Some [("model", [1%nat])]) (Some (report [("model", [r5])]))
             world0).2).2 1%nat
  = heap (publish_succeeded_execution (lib := Reference.lib) 1 [ctx1]
            (Some [("model", [1%nat])]) (Some (report [("model", [r5])]))
            world0).2 1%nat.
Proof.
  destruct (X8_publish_twice (lib := Reference.lib) 1 [ctx1]
              (Some [("model", [1%nat])]) (Some (report [("model", [r5])]))
              world0) as (_ & _ & H & _).
  - split; [unfold keys_subset; compute_done|].
    constructor; [|constructor].
    intros entry E. vm_compute in E. injection E as <-.
    split; [reflexivity|]. constructor; [reflexivity|constructor].
  - compute_done.
  - exact (H 1%nat).
Defined.

(** X9: when [publish_succeeded_execution] returns, it has called the
    put with the execution set to [COMPLETE], no input artifacts, the
    skeleton as output artifacts and the event type [OUTPUT], in a world in
    which the record of every skeleton artifact is [LIVE]. *)
Theorem X9_succeeded_put {lib : ExecutionLib}
    execution_id contexts oa eo w :
  let run := publish_succeeded_execution execution_id contexts oa eo w in
  let w_put := reconciled oa eo w in
  let records := heap w_put <$> concat (values (or_empty oa)) in
  run.1 = inr () →
  Forall (λ r, Artifact.state r = Some LIVE) records
  ∧ ∃ x,
      Store.get_executions_by_id (store w) [execution_id] = [x]
      ∧ run
        = put_and_drop (Execution.set_last_known_state COMPLETE x) contexts
            None (Some (or_empty oa)) OUTPUT w_put.
Proof.
  intros run w_put records Hok. subst run w_put records.
  pose proof (succeeded_implies_merge_passes _ _ _ _ _ Hok) as Hpass.
  split.
  - apply Forall_fmap, Forall_forall. intros a Ha.
    by apply reconciled_live.
  - rewrite merge_pass_continues in Hok |- * by done.
    destruct (Store.get_executions_by_id (store w) [execution_id])
      as [|x [|y xs]]; try done.
    by exists x.
Qed.

Lemma X9_witness :
  Forall (λ r, Artifact.state r = Some LIVE)
    (heap (reconciled (Some [("model", [1%nat; 2%nat])])
             (Some (report [("model", [r5; r5])])) world1)
       <$> concat (values (or_empty (Some [("model", [1%nat; 2%nat])])))).
Proof.
  destruct (X9_succeeded_put (lib := Reference.lib) 1 [ctx1]
              (Some [("model", [1%nat; 2%nat])])
              (Some (report [("model", [r5; r5])])) world1) as [H _].
  - reflexivity.
  - exact H.
Defined.

(** X12: an execution returned by [register_execution] can be published.
    With a put that meets its contract, in the world the registration
    leaves, each of the four publish operations called with the id of the
    returned execution finds that execution and calls the put with it, set
    to its final state ([publish_succeeded_execution] when its merge
    passes): none of them raises the error of the lookup. *)
Theorem X12_register_then_publish {lib : ExecutionLib}
    execution_type contexts ins props contexts' oa eo w e w' :
  put_contract lib →
  register_execution execution_type contexts ins props w = (inr e, w') →
  ∃ i,
    Execution.id e = Some i
    ∧ publish_failed_execution contexts' i w'
      = put_and_drop (Execution.set_last_known_state FAILED e) contexts'
          None None OUTPUT w'
    ∧ publish_cached_execution contexts' i oa w'
      = put_and_drop (Execution.set_last_known_state CACHED e) contexts'
          None oa OUTPUT w'
    ∧ publish_internal_execution contexts' i oa w'
      = put_and_drop (Execution.set_last_known_state COMPLETE e) contexts'
          None oa INTERNAL_OUTPUT w'
    ∧ (merge_passes (heap w') (or_empty oa) eo →
       publish_succeeded_execution i contexts' oa eo w'
       = put_and_drop (Execution.set_last_known_state COMPLETE e) contexts'
           None (Some (or_empty oa)) OUTPUT (reconciled oa eo w')).
Proof.
  intros Hput Hreg. unfold register_execution, mbind, M_bind in Hreg.
  destruct (prepare_execution execution_type RUNNING props w)
    as [[err|e0] w0]; [done|].
  destruct (Hput _ _ _ _ _ _ _ _ Hreg) as (i & -> & _ & Hget).
  exists i. split; [done|].
  rewrite publish_failed_execution_eq, publish_cached_execution_eq,
    publish_internal_execution_eq, Hget.
  split; [done|]. split; [done|]. split; [done|].
  intros Hpass. by rewrite merge_pass_continues, Hget.
Qed.

Lemma X12_witness :
  ∃ i,
    Execution.id (Execution.mk (Some 2) None (Some RUNNING) ∅) = Some i
    ∧ publish_failed_execution (lib := Reference.lib) [ctx1] i
        (register_execution (lib := Reference.lib)
           (ExecutionType.mk None "Trainer") [ctx1] None None world1).2
      = put_and_drop (lib := Reference.lib)
          (Execution.mk (Some 2) None (Some FAILED) ∅) [ctx1] None None
          OUTPUT
          (register_execution (lib := Reference.lib)
             (ExecutionType.mk None "Trainer") [ctx1] None None world1).2.
Proof.
  destruct (X12_register_then_publish (lib := Reference.lib)
              (ExecutionType.mk None "Trainer") [ctx1] None None [ctx1]
              None None world1
              (Execution.mk (Some 2) None (Some RUNNING) ∅)
              (register_execution (lib := Reference.lib)
                 (ExecutionType.mk None "Trainer") [ctx1] None None
                 world1).2
              reference_put_contract)
    as (i & Hi & Hf & _); [reflexivity|].
  exists i. split; [exact Hi|exact Hf].
Defined.

(** X13: when one artifact object sits at several positions of the
    skeleton, the copy made last wins: when the merge passes, the object is
    handed to the put with the record of the last pair of the walk that
    names it, marked [LIVE]. *)
Theorem X13_last_copy_wins {lib : ExecutionLib}
    execution_id contexts oa eo w pre a u post :
  merge_passes (heap w) (or_empty oa) (Some eo) →
  report_pairs eo (or_empty oa) = pre ++ (a, u) :: post →
  a ∉ post.*1 →
  continues_in execution_id contexts oa (Some eo) w
    (reconciled oa (Some eo) w)
  ∧ heap (reconciled oa (Some eo) w) a = Artifact.set_state LIVE u.
Proof.
  intros Hpass Hpairs Hlast. split; [by apply merge_pass_continues|].
  simpl.
  assert (Ha : a ∈ concat (values (or_empty oa))).
  { eapply elem_of_sublist; [|apply (report_pairs_sublist eo)].
    rewrite Hpairs, fmap_app. apply elem_of_app. right. apply list_elem_of_here. }
  rewrite marked_lookup, decide_True by done. f_equal.
  rewrite Hpairs, copied_app.
  change (copied ((a, u) :: post) ?g) with (copied post (<[a:=u]> g)).
  rewrite copied_notin by done. apply fn_lookup_insert.
Qed.

Lemma X13_witness :
  heap (reconciled (Some [("a", [2%nat; 2%nat])])
          (Some (report
                   [("a", [r5; Artifact.mk None (Some 5) (Some "gs://z") ∅
                                 (Some PENDING)])]))
          world1) 2%nat
  = Artifact.mk None (Some 5) (Some "gs://z") ∅ (Some LIVE).
Proof.
  destruct (X13_last_copy_wins (lib := Reference.lib) 1 [ctx1]
              (Some [("a", [2%nat; 2%nat])])
              (report
                 [("a", [r5; Artifact.mk None (Some 5) (Some "gs://z") ∅
                               (Some PENDING)])])
              world1 [(2%nat, r5)] 2%nat
              (Artifact.mk None (Some 5) (Some "gs://z") ∅ (Some PENDING)) [])
    as [_ H].
  - split; [unfold keys_subset; compute_done|].
    constructor; [|constructor].
    intros entry E. vm_compute in E. injection E as <-.
    split; [reflexivity|].
    constructor; [reflexivity|constructor; [reflexivity|constructor]].
  - reflexivity.
  - compute_done.
  - rewrite H. reflexivity.
Defined.
